(** * The beat catalogue canister: a model of its express handlers

    The canister keeps one [StableBTreeMap], [beatsStorage], and serves nine
    routes over it: create, list, read, update, delete, buy, two searches and
    feature.  Each handler is a short sequence of reads and writes on that
    map, so a handler is modelled as a computation in a state monad over the
    map, and what a handler reads from outside (the route parameter, the JSON
    body, the clock, the uuid drawn) are its arguments.  The repository also
    keeps two earlier copies of the server, without the searches and without
    [featured]; the model follows the latest one.

    JavaScript objects are finite maps from property names to values.  The
    object spread [{...a, ...b}] is the union of the two maps in which the
    entries of [b] win.

    [String.prototype.toLowerCase] belongs to the runtime, not to the
    repository: a search takes it as an argument, and what is proved of a
    search holds whatever that function is.

    Two things are taken as simpler than they are.  The clock reading is
    divided as an integer, without the rounding of a double.  And the map
    hands a stored value back as it was written. *)

From Stdlib Require Import ZArith QArith Qcanon Ascii String.
From stdpp Require Import base option countable strings pretty list gmap fin_maps.

Local Open Scope Z_scope.
Local Open Scope string_scope.

(** ** Values *)

(** The values a property of a beat can hold.  A request body is parsed JSON:
    [null], booleans, numbers, strings, and arrays or objects.  The handlers
    never look inside an array or an object, so one is kept as its JSON text.
    [JDate] is the [Date] built by [getCurrentDate]; [JUndefined] is what
    reading a missing property gives. *)
Inductive JsVal : Type :=
  | JUndefined
  | JNull
  | JBool (b : bool)
  | JNum (n : Qc)
  | JStr (s : string)
  | JDate (ms : Z)
  | JNested (json : string).

Global Instance JsVal_eq_dec : EqDecision JsVal.
Proof. solve_decision. Defined.

Definition JsVal_code (v : JsVal) : unit + unit + bool + Qc + string + Z + string :=
  match v with
  | JUndefined => inl (inl (inl (inl (inl (inl tt)))))
  | JNull => inl (inl (inl (inl (inl (inr tt)))))
  | JBool b => inl (inl (inl (inl (inr b))))
  | JNum n => inl (inl (inl (inr n)))
  | JStr s => inl (inl (inr s))
  | JDate ms => inl (inr ms)
  | JNested j => inr j
  end.

Definition JsVal_decode (c : unit + unit + bool + Qc + string + Z + string) : JsVal :=
  match c with
  | inl (inl (inl (inl (inl (inl _))))) => JUndefined
  | inl (inl (inl (inl (inl (inr _))))) => JNull
  | inl (inl (inl (inl (inr b)))) => JBool b
  | inl (inl (inl (inr n))) => JNum n
  | inl (inl (inr s)) => JStr s
  | inl (inr ms) => JDate ms
  | inr j => JNested j
  end.

Global Instance JsVal_countable : Countable JsVal :=
  inj_countable' JsVal_code JsVal_decode
    (λ v, match v with
          | JUndefined | JNull | JBool _ | JNum _ | JStr _ | JDate _ | JNested _ => eq_refl
          end).

(** A JavaScript object. *)
Abbreviation Obj := (gmap string JsVal).

(** [o.f]: the value of property [f], [undefined] when [o] has none. *)
Definition prop (o : Obj) (f : string) : JsVal := default JUndefined (o !! f).

(** [{...a, ...b}]. *)
Definition spread (a b : Obj) : Obj := b ∪ a.

(** What [if (v)] tests. *)
Definition truthy (v : JsVal) : bool :=
  match v with
  | JUndefined | JNull => false
  | JBool b => b
  | JNum n => negb (bool_decide (n = 0%Qc))
  | JStr s => negb (bool_decide (s = ""))
  | JDate _ | JNested _ => true
  end.

(** ** Strings *)

(** Lowering of ASCII text: the letters [A]..[Z] move to [a]..[z] and every
    other character stays.  On a string of ASCII characters this is what
    [String.prototype.toLowerCase] gives; on other text that method does more.
    It is the lowering the examples run with. *)
Definition lower_char (c : ascii) : ascii :=
  let n := N_of_ascii c in
  if ((65 <=? n) && (n <=? 90))%N then ascii_of_N (n + 32) else c.

Fixpoint lower_ascii (s : string) : string :=
  match s with
  | EmptyString => EmptyString
  | String c s' => String (lower_char c) (lower_ascii s')
  end.

(** [hay.includes(needle)]. *)
Fixpoint includes (hay needle : string) : bool :=
  String.prefix needle hay ||
  match hay with
  | EmptyString => false
  | String _ hay' => includes hay' needle
  end.

(** ** The store *)

(** [beatsStorage].  TypeScript declares it [StableBTreeMap<string, Beat>],
    but the key handed to [insert] is [beat.id], read from an object that was
    merged with an untyped request body, so at run time a key is any value. *)
Abbreviation Store := (gmap JsVal Obj).

(** A handler runs to completion on the store before the next one starts. *)
Definition M (A : Type) : Type := Store → A * Store.

Global Instance M_ret : MRet M := λ A a s, (a, s).
Global Instance M_bind : MBind M := λ A B f m s, let '(a, s') := m s in f a s'.

(** The four operations of the map the handlers use.  [insert] and [remove]
    give back the value the key held before.  [values] lists the stored values
    in one fixed order of the keys: the order of the finite map here, where
    the B-tree has the ascending order of its keys. *)
Module StableBTreeMap.

Definition get (k : JsVal) : M (option Obj) := λ s, (s !! k, s).

Definition insert (k : JsVal) (v : Obj) : M (option Obj) := λ s, (s !! k, <[k := v]> s).

Definition remove (k : JsVal) : M (option Obj) := λ s, (s !! k, delete k s).

Definition values : M (list Obj) := λ s, ((map_to_list s).*2, s).

End StableBTreeMap.

(** ** Replies *)

Inductive Data : Type :=
  | One (beat : Obj)
  | Many (beats : list Obj).

(** What a handler does with [res]: [res.status(c).json({status, ...data})],
    [res.status(c).send(text)], or it throws before replying. *)
Inductive Response : Type :=
  | Json (status : Z) (data : Data)
  | Send (status : Z) (text : string)
  | Thrown.

Definition generateRes (status : Z) (data : Data) : Response := Json status data.

Definition beatFinder (id : string) : M (option Obj) := StableBTreeMap.get (JStr id).

(** [ic.time()] counts nanoseconds; a [Date] counts whole milliseconds. *)
Definition getCurrentDate (time : Z) : JsVal := JDate (time / 1000000).

(** ** The handlers *)

(** [POST /beats]; [uuid] is the value [uuidv4()] returns. *)
Definition createBeat (uuid : string) (time : Z) (body : Obj) : M Response :=
  let beat : Obj :=
    <["featured" := JBool false]>
      (<["sold" := JBool false]>
         (<["updatedAt" := JNull]>
            (spread (<["createdAt" := getCurrentDate time]> {["id" := JStr uuid]}) body))) in
  _ ← StableBTreeMap.insert (prop beat "id") beat;
  mret (generateRes 201 (One beat)).

(** [GET /beats]. *)
Definition getBeats : M Response :=
  beats ← StableBTreeMap.values;
  mret (generateRes 200 (Many beats)).

(** [GET /beats/:id]. *)
Definition getBeatById (beatId : string) : M Response :=
  beatOpt ← beatFinder beatId;
  match beatOpt with
  | None => mret (Send 404 ("The beat with id=" +:+ beatId +:+ " not found"))
  | Some beat => mret (generateRes 200 (One beat))
  end.

(** [PUT /beats/:id]. *)
Definition updateBeat (time : Z) (beatId : string) (body : Obj) : M Response :=
  beatOpt ← beatFinder beatId;
  match beatOpt with
  | None =>
      mret (Send 400 ("Couldn't update the beat with id=" +:+ beatId +:+ ". Beat not found"))
  | Some beat =>
      let updatedBeat : Obj := <["updatedAt" := getCurrentDate time]> (spread beat body) in
      _ ← StableBTreeMap.insert (prop beat "id") updatedBeat;
      mret (generateRes 200 (One updatedBeat))
  end.

(** [DELETE /beats/:id]. *)
Definition deleteBeat (beatId : string) : M Response :=
  deletedBeat ← StableBTreeMap.remove (JStr beatId);
  match deletedBeat with
  | None =>
      mret (Send 400 ("Couldn't delete the beat with id=" +:+ beatId +:+ ". Beat not found"))
  | Some beat => mret (generateRes 200 (One beat))
  end.

(** [POST /beats/:id/buy]. *)
Definition buyBeat (time : Z) (beatId : string) : M Response :=
  beatOpt ← beatFinder beatId;
  match beatOpt with
  | None => mret (Send 404 ("The beat with id=" +:+ beatId +:+ " not found"))
  | Some beat =>
      if truthy (prop beat "sold") then
        mret (Send 400 ("The beat with id=" +:+ beatId +:+ " is already sold"))
      else
        let beat : Obj := <["updatedAt" := getCurrentDate time]> (<["sold" := JBool true]> beat) in
        _ ← StableBTreeMap.insert (prop beat "id") beat;
        mret (generateRes 200 (One beat))
  end.

(** [POST /beats/:id/feature]. *)
Definition featureBeat (time : Z) (beatId : string) : M Response :=
  beatOpt ← beatFinder beatId;
  match beatOpt with
  | None => mret (Send 404 ("The beat with id=" +:+ beatId +:+ " not found"))
  | Some beat =>
      let beat : Obj := <["updatedAt" := getCurrentDate time]> (<["featured" := JBool true]> beat) in
      _ ← StableBTreeMap.insert (prop beat "id") beat;
      mret (generateRes 200 (One beat))
  end.

(** What [x.toLowerCase()] gives: for a string, what the runtime's
    [toLowerCase] makes of it; for any other value the call throws a
    [TypeError] ([None]). *)
Definition toLowerCase_method (toLowerCase : string → string) (v : JsVal) : option string :=
  match v with
  | JStr s => Some (toLowerCase s)
  | _ => None
  end.

(** [xs.filter(p)] for a callback that may throw: the callback runs on the
    elements in order and the first throw ends the call. *)
Fixpoint filter_callback {A : Type} (p : A → option bool) (xs : list A) : option (list A) :=
  match xs with
  | [] => Some []
  | x :: xs' =>
      match p x with
      | None => None
      | Some keep =>
          match filter_callback p xs' with
          | None => None
          | Some ys => Some (if keep then x :: ys else ys)
          end
      end
  end.

(** The callback of both searches, on the property [field]. *)
Definition field_includes (toLowerCase : string → string) (field needle : string)
    (beat : Obj) : option bool :=
  match toLowerCase_method toLowerCase (prop beat field) with
  | Some lowered => Some (includes lowered needle)
  | None => None
  end.

(** [GET /beats/search/artist/:artist]. *)
Definition searchBeatsByArtist (toLowerCase : string → string) (artistParam : string) :
    M Response :=
  let artist := toLowerCase artistParam in
  all ← StableBTreeMap.values;
  match filter_callback (field_includes toLowerCase "artist" artist) all with
  | Some beats => mret (generateRes 200 (Many beats))
  | None => mret Thrown
  end.

(** [GET /beats/search/title/:title]. *)
Definition searchBeatsByTitle (toLowerCase : string → string) (titleParam : string) :
    M Response :=
  let title := toLowerCase titleParam in
  all ← StableBTreeMap.values;
  match filter_callback (field_includes toLowerCase "title" title) all with
  | Some beats => mret (generateRes 200 (Many beats))
  | None => mret Thrown
  end.

(** ** Requests and runs *)

(** One request to the canister, with what the handler reads from its
    environment while it serves it: the clock, the uuid drawn and, in a
    search, the runtime's [toLowerCase]. *)
Inductive Request : Type :=
  | PostBeats (uuid : string) (time : Z) (body : Obj)
  | GetBeats
  | GetBeat (id : string)
  | PutBeat (time : Z) (id : string) (body : Obj)
  | DeleteBeat (id : string)
  | PostBuy (time : Z) (id : string)
  | GetSearchArtist (toLowerCase : string → string) (artist : string)
  | GetSearchTitle (toLowerCase : string → string) (title : string)
  | PostFeature (time : Z) (id : string).

Definition serve (r : Request) : M Response :=
  match r with
  | PostBeats uuid time body => createBeat uuid time body
  | GetBeats => getBeats
  | GetBeat id => getBeatById id
  | PutBeat time id body => updateBeat time id body
  | DeleteBeat id => deleteBeat id
  | PostBuy time id => buyBeat time id
  | GetSearchArtist toLowerCase artist => searchBeatsByArtist toLowerCase artist
  | GetSearchTitle toLowerCase title => searchBeatsByTitle toLowerCase title
  | PostFeature time id => featureBeat time id
  end.

(** The store after a list of requests, served in order. *)
Fixpoint run (rs : list Request) (s : Store) : Store :=
  match rs with
  | [] => s
  | r :: rs' => run rs' (serve r s).2
  end.

(** The replies to a list of requests. *)
Fixpoint replies (rs : list Request) (s : Store) : list Response :=
  match rs with
  | [] => []
  | r :: rs' => (serve r s).1 :: replies rs' (serve r s).2
  end.

(** The body a client sends to create a beat. *)
Definition beat_fields (title artist : string) (price : Qc) (url : string) : Obj :=
  <["url" := JStr url]>
    (<["price" := JNum price]>
       (<["artist" := JStr artist]> {["title" := JStr title]})).

(** ** Notions the properties are stated with *)

(** Every record is stored under the key that its own [id] property holds. *)
Definition own_ids (s : Store) : Prop :=
  ∀ k beat, s !! k = Some beat → prop beat "id" = k.

(** The record stored under [k] is marked sold. *)
Definition sold_at (s : Store) (k : JsVal) : Prop :=
  ∃ beat, s !! k = Some beat ∧ prop beat "sold" = JBool true.

(** The requests that leave [id] and [sold] to the canister: a create whose
    body names no id and whose drawn uuid is not in use, an update whose body
    names neither [id] nor [sold], and every other request. *)
Definition respects_marks (r : Request) (s : Store) : Prop :=
  match r with
  | PostBeats uuid _ body => body !! "id" = None ∧ s !! JStr uuid = None
  | PutBeat _ _ body => body !! "id" = None ∧ body !! "sold" = None
  | _ => True
  end.

Fixpoint respects_marks_run (rs : list Request) (s : Store) : Prop :=
  match rs with
  | [] => True
  | r :: rs' => respects_marks r s ∧ respects_marks_run rs' (serve r s).2
  end.

(** The keys under which two stores differ. *)
Definition changed (s s' : Store) : gset JsVal :=
  filter (λ k, s !! k ≠ s' !! k) (dom s ∪ dom s').

(** The history of a run, kept beside the store: the keys whose record has
    been changed by an update, a buy or a feature since a create last wrote
    it. *)
Definition mutated_step (r : Request) (s : Store) (g : gset JsVal) : gset JsVal :=
  match r with
  | PostBeats _ _ _ => g ∖ changed s (serve r s).2
  | PutBeat _ _ _ | PostBuy _ _ | PostFeature _ _ => g ∪ changed s (serve r s).2
  | GetBeats | GetBeat _ | DeleteBeat _ | GetSearchArtist _ _ | GetSearchTitle _ _ => g
  end.

Fixpoint mutated (rs : list Request) (s : Store) (g : gset JsVal) : gset JsVal :=
  match rs with
  | [] => g
  | r :: rs' => mutated rs' (serve r s).2 (mutated_step r s g)
  end.

(** The stamps agree with a history [g]: a stored record has [updatedAt] null
    exactly when its key is not among the mutated ones. *)
Definition stamps_agree (s : Store) (g : gset JsVal) : Prop :=
  ∀ k beat, s !! k = Some beat → (prop beat "updatedAt" = JNull ↔ k ∉ g).

(** The requests that mutate a record: update, buy and feature. *)
Definition is_mutation (r : Request) : bool :=
  match r with
  | PutBeat _ _ _ | PostBuy _ _ | PostFeature _ _ => true
  | _ => false
  end.

(** One call of create as a client makes it, with the uuid the call draws. *)
Record Creation : Type := {
  drawn : string;
  clock : Z;
  title : string;
  artist : string;
  price : Qc;
  url : string
}.

Definition post_of (c : Creation) : Request :=
  PostBeats (drawn c) (clock c) (beat_fields (title c) (artist c) (price c) (url c)).


(** [ys] is [xs] without the elements that fail [P], in the order of [xs]. *)
Inductive Selected {A : Type} (P : A → Prop) : list A → list A → Prop :=
  | selected_nil : Selected P [] []
  | selected_keep x xs ys : P x → Selected P xs ys → Selected P (x :: xs) (x :: ys)
  | selected_drop x xs ys : ¬ P x → Selected P xs ys → Selected P (x :: xs) ys.

(** [needle] is a stretch of [hay]. *)
Definition occurs (needle hay : string) : Prop :=
  ∃ pre suf, hay = pre +:+ needle +:+ suf.

(** The beat holds a string in [field], and the lowered query is a stretch of
    that string lowered. *)
Definition field_matches (toLowerCase : string → string) (field query : string)
    (beat : Obj) : Prop :=
  ∃ text, prop beat field = JStr text ∧ occurs (toLowerCase query) (toLowerCase text).

(** [needle] occurs in [hay] when the case of ASCII letters is ignored: a
    stretch of [hay] reads as [needle] once both are lowered. *)
Definition occurs_ignoring_case (needle hay : string) : Prop :=
  ∃ pre mid suf, hay = pre +:+ mid +:+ suf ∧ lower_ascii mid = lower_ascii needle.

(** The string holds ASCII characters only. *)
Fixpoint ascii_text (s : string) : bool :=
  match s with
  | EmptyString => true
  | String c s' => (N_of_ascii c <? 128)%N && ascii_text s'
  end.

(** On ASCII text the lowering is the one of ASCII letters, as it is for
    [String.prototype.toLowerCase]. *)
Definition lowers_ascii (toLowerCase : string → string) : Prop :=
  ∀ s, ascii_text s = true → toLowerCase s = lower_ascii s.

(** The beat holds a string in [field] in which the query occurs when the
    case of ASCII letters is ignored. *)
Definition field_matches_ignoring_case (field query : string) (beat : Obj) : Prop :=
  ∃ text, prop beat field = JStr text ∧ occurs_ignoring_case query text.

(** Every stored record holds ASCII text in [field]. *)
Definition field_is_ascii (field : string) (s : Store) : Prop :=
  ∀ k beat, s !! k = Some beat → ∃ text, prop beat field = JStr text ∧ ascii_text text = true.

(** Every stored record holds a string in [field], as [interface Beat] has it. *)
Definition field_is_text (field : string) (s : Store) : Prop :=
  ∀ k beat, s !! k = Some beat → ∃ text, prop beat field = JStr text.

(** ** Sample data *)

(** The beat of the scenario: Night by Wave, 9.99, at u1. *)
Definition night : Obj := beat_fields "Night" "Wave" (Q2Qc (999 # 100)) "u1".

(** The store after that beat was created under the id [a]. *)
Definition shop : Store := run [PostBeats "a" 5000000 night] ∅.

(** The store after an update of that beat whose body names another id. *)
Definition forged : Store :=
  run [PostBeats "a" 5000000 night; PutBeat 6000000 "a" {["id" := JStr "b"]}] ∅.

(** The store with two beats, by Wave and by Waverly. *)
Definition duo : Store :=
  run [PostBeats "a" 5000000 night;
       PostBeats "b" 6000000 (beat_fields "Dawn" "Waverly" (Q2Qc 5) "u2")] ∅.

(** The store with a second beat, after an update of the first whose body
    names the id of the second. *)
Definition clash : Store :=
  run [PostBeats "a" 5000000 night; PostBeats "b" 5000000 night;
       PutBeat 6000000 "a" {["id" := JStr "b"]}] ∅.

(** ** The replies the handlers send, by name *)

Definition not_found (id : string) : Response :=
  Send 404 ("The beat with id=" +:+ id +:+ " not found").

Definition update_not_found (id : string) : Response :=
  Send 400 ("Couldn't update the beat with id=" +:+ id +:+ ". Beat not found").

Definition delete_not_found (id : string) : Response :=
  Send 400 ("Couldn't delete the beat with id=" +:+ id +:+ ". Beat not found").

Definition already_sold (id : string) : Response :=
  Send 400 ("The beat with id=" +:+ id +:+ " is already sold").

(** A reply that is not the JSON envelope: a text error, or nothing at all. *)
Definition is_error (r : Response) : bool :=
  match r with
  | Json _ _ => false
  | Send _ _ | Thrown => true
  end.

(** ** Notions for the further properties *)

(** The key a create writes: the [id] its body names, else the uuid drawn. *)
Definition created_key (uuid : string) (body : Obj) : JsVal :=
  default (JStr uuid) (body !! "id").

(** An update of this kind hands the canister no [id]. *)
Definition keeps_ids (r : Request) : Prop :=
  match r with
  | PutBeat _ _ body => body !! "id" = None
  | _ => True
  end.

(** No body of the request names an [id]. *)
Definition names_no_id (r : Request) : Prop :=
  match r with
  | PostBeats _ _ body | PutBeat _ _ body => body !! "id" = None
  | _ => True
  end.

(** The uuids the creates of a run draw. *)
Fixpoint drawn_ids (rs : list Request) : list string :=
  match rs with
  | [] => []
  | PostBeats uuid _ _ :: rs' => uuid :: drawn_ids rs'
  | _ :: rs' => drawn_ids rs'
  end.

(** The requests that leave the property [f] of the stored records to the
    canister: a create that writes under a key not in use, an update whose
    body names neither [id] nor [f], and every other request. *)
Definition leaves_field (f : string) (r : Request) (s : Store) : Prop :=
  match r with
  | PostBeats uuid _ body => s !! created_key uuid body = None
  | PutBeat _ _ body => body !! "id" = None ∧ body !! f = None
  | _ => True
  end.

(** Some stored record holds no string in [field]. *)
Definition field_not_text (field : string) (s : Store) : Prop :=
  ∃ k beat, s !! k = Some beat ∧ ∀ text, prop beat field ≠ JStr text.

(** ** The reply object *)

(** What [generateRes] hands to [res.json]: the object [{ status, ...data }].
    Its entries are the status code and the own properties of [data], which
    win over the code: the properties of the beat when [data] is one beat, and
    the elements under their indices, written in decimal, when [data] is the
    array of beats. *)
Inductive Entry : Type :=
  | Field (v : JsVal)
  | Element (beat : Obj).

Definition own_entries (data : Data) : gmap string Entry :=
  match data with
  | One beat => Field <$> beat
  | Many beats => list_to_map (imap (λ i beat, (pretty i, Element beat)) beats)
  end.

Definition envelope (status : Z) (data : Data) : gmap string Entry :=
  own_entries data ∪ {["status" := Field (JNum (Q2Qc (inject_Z status)))]}.

(** ** Reading a handler *)

Ltac handler :=
  unfold createBeat, getBeats, getBeatById, updateBeat, deleteBeat, buyBeat, featureBeat,
    searchBeatsByArtist, searchBeatsByTitle, beatFinder, generateRes,
    StableBTreeMap.get, StableBTreeMap.insert, StableBTreeMap.remove, StableBTreeMap.values,
    not_found, update_not_found, delete_not_found, already_sold,
    mbind, mret, M_bind, M_ret; cbn beta iota.

Section Handlers.

Context (s : Store).

Lemma getBeatById_absent id : s !! JStr id = None → getBeatById id s = (not_found id, s).
Proof. intros H. handler. by rewrite H. Qed.

Lemma getBeatById_present id beat :
  s !! JStr id = Some beat → getBeatById id s = (Json 200 (One beat), s).
Proof. intros H. handler. by rewrite H. Qed.

Lemma updateBeat_absent time id body :
  s !! JStr id = None → updateBeat time id body s = (update_not_found id, s).
Proof. intros H. handler. by rewrite H. Qed.

Lemma updateBeat_present time id body beat :
  s !! JStr id = Some beat →
  updateBeat time id body s =
    (Json 200 (One (<["updatedAt" := getCurrentDate time]> (spread beat body))),
     <[prop beat "id" := <["updatedAt" := getCurrentDate time]> (spread beat body)]> s).
Proof. intros H. handler. by rewrite H. Qed.

Lemma deleteBeat_absent id : s !! JStr id = None → deleteBeat id s = (delete_not_found id, s).
Proof. intros H. handler. rewrite H. by rewrite delete_id. Qed.

Lemma deleteBeat_present id beat :
  s !! JStr id = Some beat → deleteBeat id s = (Json 200 (One beat), delete (JStr id) s).
Proof. intros H. handler. by rewrite H. Qed.

Lemma buyBeat_absent time id : s !! JStr id = None → buyBeat time id s = (not_found id, s).
Proof. intros H. handler. by rewrite H. Qed.

Lemma buyBeat_sold time id beat :
  s !! JStr id = Some beat → truthy (prop beat "sold") = true →
  buyBeat time id s = (already_sold id, s).
Proof. intros H Hsold. handler. by rewrite H, Hsold. Qed.

Lemma buyBeat_unsold time id beat :
  s !! JStr id = Some beat → truthy (prop beat "sold") = false →
  buyBeat time id s =
    (Json 200 (One (<["updatedAt" := getCurrentDate time]> (<["sold" := JBool true]> beat))),
     <[prop (<["updatedAt" := getCurrentDate time]> (<["sold" := JBool true]> beat)) "id" :=
         <["updatedAt" := getCurrentDate time]> (<["sold" := JBool true]> beat)]> s).
Proof. intros H Hsold. handler. by rewrite H, Hsold. Qed.

Lemma featureBeat_absent time id : s !! JStr id = None → featureBeat time id s = (not_found id, s).
Proof. intros H. handler. by rewrite H. Qed.

Lemma featureBeat_present time id beat :
  s !! JStr id = Some beat →
  featureBeat time id s =
    (Json 200 (One (<["updatedAt" := getCurrentDate time]> (<["featured" := JBool true]> beat))),
     <[prop (<["updatedAt" := getCurrentDate time]> (<["featured" := JBool true]> beat)) "id" :=
         <["updatedAt" := getCurrentDate time]> (<["featured" := JBool true]> beat)]> s).
Proof. intros H. handler. by rewrite H. Qed.

End Handlers.

(** Writing a property other than [f] leaves [o.f] as it was. *)
Lemma prop_insert_ne (o : Obj) (f g : string) (v : JsVal) :
  f ≠ g → prop (<[g := v]> o) f = prop o f.
Proof. intros H. unfold prop. by rewrite lookup_insert_ne. Qed.

Lemma prop_insert_eq (o : Obj) (f : string) (v : JsVal) : prop (<[f := v]> o) f = v.
Proof. unfold prop. by rewrite lookup_insert_eq. Qed.

(** In [{...a, ...b}] a property comes from [b] when [b] has it, else from [a]. *)
Lemma lookup_spread (a b : Obj) (f : string) :
  spread a b !! f = match b !! f with Some v => Some v | None => a !! f end.
Proof.
  unfold spread. destruct (b !! f) as [v|] eqn:Hb.
  - by apply lookup_union_Some_l.
  - by rewrite lookup_union_r.
Qed.

Lemma prop_spread_absent (a b : Obj) (f : string) :
  b !! f = None → prop (spread a b) f = prop a f.
Proof. intros H. unfold prop. by rewrite lookup_spread, H. Qed.

(** ** Update *)

(** C3. [updateBeat] on an id with no stored record replies not-found and
    leaves the store alone.  On a stored record it replies with, and stores,
    the merge: every property the body supplies takes the body's value
    (whatever its name), every other property keeps the stored value, and
    [updatedAt] is then set to the current date.  A body of only a price
    leaves title, artist and url as they were. *)
Theorem updateBeat_merges (time : Z) (id : string) (body : Obj) (s : Store) :
  (s !! JStr id = None → updateBeat time id body s = (update_not_found id, s)) ∧
  (∀ beat, s !! JStr id = Some beat →
     ∃ merged,
       updateBeat time id body s = (Json 200 (One merged), <[prop beat "id" := merged]> s) ∧
       merged !! "updatedAt" = Some (getCurrentDate time) ∧
       (∀ f v, f ≠ "updatedAt" → body !! f = Some v → merged !! f = Some v) ∧
       (∀ f, f ≠ "updatedAt" → body !! f = None → merged !! f = beat !! f) ∧
       (∀ p, body = {["price" := p]} →
          prop merged "title" = prop beat "title" ∧
          prop merged "artist" = prop beat "artist" ∧
          prop merged "url" = prop beat "url" ∧
          prop merged "price" = p)).
Proof.
  split; [apply updateBeat_absent|].
  intros beat Hbeat. eexists. split; [by apply updateBeat_present|].
  split; [by rewrite lookup_insert_eq|].
  split; [|split].
  - intros f v Hf Hv. by rewrite lookup_insert_ne, lookup_spread, Hv.
  - intros f Hf Hv. by rewrite lookup_insert_ne, lookup_spread, Hv.
  - intros p ->. unfold prop.
    rewrite !lookup_insert_ne, !lookup_spread by done.
    by rewrite !lookup_singleton_ne, lookup_singleton_eq by done.
Qed.

Lemma updateBeat_merges_witness :
  shop !! JStr "a" = Some (<["featured" := JBool false]>
                            (<["sold" := JBool false]>
                               (<["updatedAt" := JNull]>
                                  (spread (<["createdAt" := JDate 5]> {["id" := JStr "a"]}) night)))) ∧
  ∃ merged,
    updateBeat 8000000 "a" {["price" := JNum (Q2Qc 5)]} shop
      = (Json 200 (One merged), <[JStr "a" := merged]> shop) ∧
    prop merged "title" = JStr "Night" ∧ prop merged "price" = JNum (Q2Qc 5).
Proof.
  split; [reflexivity|].
  destruct (proj2 (updateBeat_merges 8000000 "a" {["price" := JNum (Q2Qc 5)]} shop) _ eq_refl)
    as (merged & Hrun & _ & _ & _ & Hprice).
  exists merged. split; [exact Hrun|].
  destruct (Hprice _ eq_refl) as (Ht & _ & _ & Hp). split; [exact Ht | exact Hp].
Defined.

(** ** Feature *)

(** C8. [featureBeat] on an id with no stored record replies not-found.  On a
    stored record it replies with, and stores, that record with [featured]
    true and [updatedAt] the current date.  On a record that is featured
    already it succeeds all the same, and the record it stores differs from
    the old one in [updatedAt] only. *)
Theorem featureBeat_restamps (time : Z) (id : string) (s : Store) :
  (s !! JStr id = None → featureBeat time id s = (not_found id, s)) ∧
  (∀ beat, s !! JStr id = Some beat →
     ∃ beat',
       featureBeat time id s = (Json 200 (One beat'), <[prop beat "id" := beat']> s) ∧
       beat' !! "featured" = Some (JBool true) ∧
       beat' !! "updatedAt" = Some (getCurrentDate time) ∧
       (∀ f, f ≠ "featured" → f ≠ "updatedAt" → beat' !! f = beat !! f) ∧
       (beat !! "featured" = Some (JBool true) →
          beat' = <["updatedAt" := getCurrentDate time]> beat)).
Proof.
  split; [apply featureBeat_absent|].
  intros beat Hbeat. eexists. split.
  { rewrite (featureBeat_present s time id beat Hbeat).
    by rewrite !prop_insert_ne by done. }
  split; [by rewrite lookup_insert_ne, lookup_insert_eq|].
  split; [by rewrite lookup_insert_eq|].
  split.
  - intros f Hf Hu. by rewrite !lookup_insert_ne.
  - intros Hfeat. by rewrite (insert_id beat "featured").
Qed.

Lemma featureBeat_restamps_witness :
  is_Some (shop !! JStr "a") ∧
  ∃ beat', featureBeat 9000000 "a" shop = (Json 200 (One beat'), <[JStr "a" := beat']> shop) ∧
           beat' !! "featured" = Some (JBool true).
Proof.
  split; [by eexists|].
  destruct (proj2 (featureBeat_restamps 9000000 "a" shop) _ eq_refl) as (beat' & Hrun & Hf & _).
  exists beat'. split; [exact Hrun | exact Hf].
Defined.

(** ** Delete *)

(** C6. [deleteBeat] removes the record stored under the id and replies with
    it, or replies not-found when there is none.  After a delete, reading the
    id replies not-found, and so does deleting it again. *)
Theorem deleteBeat_final (id : string) (s : Store) :
  deleteBeat id s =
    match s !! JStr id with
    | Some beat => (Json 200 (One beat), delete (JStr id) s)
    | None => (delete_not_found id, s)
    end ∧
  getBeatById id (deleteBeat id s).2 = (not_found id, (deleteBeat id s).2) ∧
  deleteBeat id (deleteBeat id s).2 = (delete_not_found id, (deleteBeat id s).2).
Proof.
  assert (Hgone : (deleteBeat id s).2 !! JStr id = None).
  { handler. destruct (s !! JStr id); apply lookup_delete_eq. }
  split; [|split].
  - destruct (s !! JStr id) as [beat|] eqn:Hbeat.
    + by apply deleteBeat_present.
    + by apply deleteBeat_absent.
  - by apply getBeatById_absent.
  - by apply deleteBeat_absent.
Qed.

(** ** Failed requests *)

(** C10. A request that is answered with an error leaves the store exactly as
    it was.  That is the case for a read, an update, a delete, a buy and a
    feature of an id with no stored record, and for a buy of a record that is
    sold already. *)
Theorem errors_leave_store (s : Store) :
  (∀ r, is_error (serve r s).1 = true → (serve r s).2 = s) ∧
  (∀ id, s !! JStr id = None →
     getBeatById id s = (not_found id, s) ∧
     (∀ time body, updateBeat time id body s = (update_not_found id, s)) ∧
     deleteBeat id s = (delete_not_found id, s) ∧
     (∀ time, buyBeat time id s = (not_found id, s)) ∧
     (∀ time, featureBeat time id s = (not_found id, s))) ∧
  (∀ id beat time, s !! JStr id = Some beat → truthy (prop beat "sold") = true →
     buyBeat time id s = (already_sold id, s)).
Proof.
  split; [|split].
  - intros [uuid time body| |id|time id body|id|time id|lower artist|lower title|time id] Herr;
      revert Herr; simpl; handler.
    + done.
    + done.
    + by destruct (s !! JStr id).
    + by destruct (s !! JStr id).
    + destruct (s !! JStr id) eqn:Hid; [done|]. intros _. by apply delete_id.
    + destruct (s !! JStr id); [|done]. by destruct (truthy _).
    + by destruct (filter_callback _ _).
    + by destruct (filter_callback _ _).
    + by destruct (s !! JStr id).
  - intros id Hid. split; [by apply getBeatById_absent|].
    split; [intros; by apply updateBeat_absent|].
    split; [by apply deleteBeat_absent|].
    split; intros; [by apply buyBeat_absent | by apply featureBeat_absent].
  - intros id beat time Hid Hsold. by apply (buyBeat_sold s time id beat).
Qed.

Lemma errors_leave_store_witness :
  is_error (serve (PostBuy 9000000 "z") shop).1 = true ∧
  (serve (PostBuy 9000000 "z") shop).2 = shop.
Proof.
  split; [reflexivity|].
  exact (proj1 (errors_leave_store shop) (PostBuy 9000000 "z") eq_refl).
Defined.

(** ** Buy *)

(** Buying a sold record again and again: every reply is already-sold and the
    store never moves. *)
Lemma buy_again_refused (id : string) (beat : Obj) (s : Store) (times : list Z) :
  s !! JStr id = Some beat → truthy (prop beat "sold") = true →
  replies ((λ t, PostBuy t id) <$> times) s = (λ _, already_sold id) <$> times ∧
  run ((λ t, PostBuy t id) <$> times) s = s.
Proof.
  intros Hid Hsold. induction times as [|t times [IHr IHs]]; [done|].
  cbn [fmap list_fmap replies run serve].
  rewrite (buyBeat_sold s t id beat Hid Hsold). cbn [fst snd].
  split; [by f_equal | done].
Qed.

(** C2, as the code has it.  [buyBeat] on an id with no stored record replies
    not-found; on a record that is sold it replies already-sold and changes
    nothing; on any other record it replies with that record with [sold] true
    and [updatedAt] the current date, and stores it under the record's own
    [id].  When that [id] is the id the record is stored under, every further
    buy of it is refused as already sold, and the record stays sold. *)
Theorem buyBeat_once (time : Z) (id : string) (s : Store) :
  (s !! JStr id = None → buyBeat time id s = (not_found id, s)) ∧
  (∀ beat, s !! JStr id = Some beat → truthy (prop beat "sold") = true →
     buyBeat time id s = (already_sold id, s)) ∧
  (∀ beat, s !! JStr id = Some beat → truthy (prop beat "sold") = false →
     let bought := <["updatedAt" := getCurrentDate time]> (<["sold" := JBool true]> beat) in
     buyBeat time id s = (Json 200 (One bought), <[prop beat "id" := bought]> s) ∧
     (prop beat "id" = JStr id →
        ∀ times : list Z,
          let again := (λ t, PostBuy t id) <$> times in
          let s' := (buyBeat time id s).2 in
          replies again s' = (λ _, already_sold id) <$> times ∧
          run again s' = s' ∧
          s' !! JStr id = Some bought ∧
          prop bought "sold" = JBool true)).
Proof.
  split; [apply buyBeat_absent|]. split; [intros; by eapply buyBeat_sold|].
  intros beat Hid Hsold bought.
  assert (Hrun : buyBeat time id s = (Json 200 (One bought), <[prop beat "id" := bought]> s)).
  { rewrite (buyBeat_unsold s time id beat Hid Hsold).
    by rewrite !prop_insert_ne by done. }
  split; [exact Hrun|].
  intros Hown times again s'. subst again s'. rewrite Hrun, Hown. cbn [snd].
  assert (Hmark : prop bought "sold" = JBool true).
  { subst bought. by rewrite prop_insert_ne, prop_insert_eq. }
  assert (Hat : <[JStr id := bought]> s !! JStr id = Some bought) by apply lookup_insert_eq.
  destruct (buy_again_refused id bought _ times Hat) as [Hr Hs]; [by rewrite Hmark|].
  done.
Qed.

Lemma buyBeat_once_witness :
  is_Some (shop !! JStr "a") ∧
  replies [PostBuy 8000000 "a"; PostBuy 9000000 "a"] (buyBeat 7000000 "a" shop).2
    = [already_sold "a"; already_sold "a"].
Proof.
  split; [by eexists|].
  destruct (proj2 (proj2 (buyBeat_once 7000000 "a" shop)) _ eq_refl eq_refl) as [_ Hagain].
  exact (proj1 (Hagain eq_refl [8000000; 9000000])).
Defined.

(** C2, as stated, fails once an update has given a record an [id] other than
    the one it is stored under: the buy succeeds, the sold copy goes under the
    other id, and the same buy succeeds again. *)
Lemma buy_succeeds_twice :
  let s' := (buyBeat 7000000 "a" forged).2 in
  is_error (buyBeat 7000000 "a" forged).1 = false ∧
  is_error (buyBeat 8000000 "a" s').1 = false ∧
  (buyBeat 8000000 "a" s').1 ≠ already_sold "a" ∧
  (λ beat, prop beat "sold") <$> s' !! JStr "a" = Some (JBool false).
Proof. vm_compute. repeat split; congruence. Qed.

(** ** Keys *)

(** C9, as the code has it.  An update of an id with no stored record changes
    nothing.  An update of a record that carries, as its own [id], the id it
    is stored under leaves the set of keys as it was and touches no other
    record: the merge is stored under that same key, also when the body names
    another id.  The stored [id] then is the body's, and a read of that other
    id is answered as before the update: not-found, unless another record is
    stored under it. *)
Theorem updateBeat_keeps_keys (time : Z) (id : string) (body : Obj) (s : Store) :
  (s !! JStr id = None → (updateBeat time id body s).2 = s) ∧
  (∀ beat, s !! JStr id = Some beat → prop beat "id" = JStr id →
     let s' := (updateBeat time id body s).2 in
     dom s' = dom s ∧
     (∀ k, k ≠ JStr id → s' !! k = s !! k) ∧
     (∃ merged, s' !! JStr id = Some merged ∧
                (updateBeat time id body s).1 = Json 200 (One merged) ∧
                (∀ v, body !! "id" = Some v → prop merged "id" = v)) ∧
     (∀ other, body !! "id" = Some (JStr other) → other ≠ id →
        (getBeatById other s').1 = (getBeatById other s).1 ∧
        (s !! JStr other = None → getBeatById other s' = (not_found other, s')))).
Proof.
  split; [intros H; by rewrite updateBeat_absent|].
  intros beat Hid Hown s'. subst s'.
  rewrite (updateBeat_present s time id body beat Hid), Hown. cbn [fst snd].
  split; [|split; [|split]].
  - by apply dom_insert_lookup_L.
  - intros k Hk. by rewrite lookup_insert_ne.
  - eexists. split; [apply lookup_insert_eq|]. split; [done|].
    intros v Hv. unfold prop. by rewrite lookup_insert_ne, lookup_spread, Hv.
  - intros other Hbody Hne.
    assert (Hother : <[JStr id := <["updatedAt" := getCurrentDate time]> (spread beat body)]> s
                       !! JStr other = s !! JStr other).
    { apply lookup_insert_ne. congruence. }
    split.
    + handler. rewrite Hother. by destruct (s !! JStr other).
    + intros Hnone. apply getBeatById_absent. by rewrite Hother.
Qed.

Lemma updateBeat_keeps_keys_witness :
  is_Some (shop !! JStr "a") ∧
  dom (updateBeat 6000000 "a" {["id" := JStr "b"]} shop).2 = dom shop ∧
  getBeatById "b" (updateBeat 6000000 "a" {["id" := JStr "b"]} shop).2
    = (not_found "b", (updateBeat 6000000 "a" {["id" := JStr "b"]} shop).2).
Proof.
  split; [by eexists|].
  destruct (proj2 (updateBeat_keeps_keys 6000000 "a" {["id" := JStr "b"]} shop) _ eq_refl eq_refl)
    as (Hdom & _ & _ & Hread).
  split; [exact Hdom|].
  apply (Hread "b"); [reflexivity | congruence | reflexivity].
Defined.

(** C9, as stated, fails on a record whose [id] was changed by an earlier
    update: the next update of it stores the merge under that other id, a key
    the store did not have.  And the read of an id named in the body is not
    answered not-found when another record is stored under it. *)
Lemma update_adds_a_key :
  forged !! JStr "b" = None ∧
  is_Some ((updateBeat 7000000 "a" ∅ forged).2 !! JStr "b") ∧
  dom (updateBeat 7000000 "a" ∅ forged).2 ≠ dom forged ∧
  is_error (getBeatById "b" clash).1 = false.
Proof.
  assert (Hnew : is_Some ((updateBeat 7000000 "a" ∅ forged).2 !! JStr "b")).
  { eexists. vm_compute. reflexivity. }
  assert (Hold : forged !! JStr "b" = None) by reflexivity.
  split; [done|]. split; [done|]. split; [|reflexivity].
  intros Hdom. apply elem_of_dom in Hnew. rewrite Hdom in Hnew.
  apply elem_of_dom in Hnew. rewrite Hold in Hnew. by destruct Hnew.
Qed.

(** ** The sold mark *)

Lemma createBeat_eq (uuid : string) (time : Z) (body : Obj) (s : Store) :
  let beat : Obj :=
    <["featured" := JBool false]>
      (<["sold" := JBool false]>
         (<["updatedAt" := JNull]>
            (spread (<["createdAt" := getCurrentDate time]> {["id" := JStr uuid]}) body))) in
  createBeat uuid time body s = (Json 201 (One beat), <[prop beat "id" := beat]> s).
Proof. reflexivity. Qed.

(** When the body names no id, the created beat carries the drawn uuid. *)
Lemma createBeat_id (uuid : string) (time : Z) (body : Obj) :
  body !! "id" = None →
  prop (<["featured" := JBool false]>
          (<["sold" := JBool false]>
             (<["updatedAt" := JNull]>
                (spread (<["createdAt" := getCurrentDate time]> {["id" := JStr uuid]}) body))))
       "id" = JStr uuid.
Proof.
  intros Hbody. rewrite !prop_insert_ne by done.
  rewrite prop_spread_absent by done.
  rewrite prop_insert_ne by done. unfold prop. by rewrite lookup_singleton_eq.
Qed.

Lemma own_ids_insert (s : Store) (k : JsVal) (beat : Obj) :
  own_ids s → prop beat "id" = k → own_ids (<[k := beat]> s).
Proof.
  intros Hs Hbeat k' beat'. rewrite lookup_insert.
  case_decide as Hk; [|by apply Hs]. intros [= <-]. by subst.
Qed.

Lemma own_ids_delete (s : Store) (k : JsVal) : own_ids s → own_ids (delete k s).
Proof. intros Hs k' beat' [_ H]%lookup_delete_Some. by apply Hs. Qed.

Lemma searchBeatsByArtist_store (lower : string → string) (artist : string) (s : Store) :
  (searchBeatsByArtist lower artist s).2 = s.
Proof. handler. by destruct (filter_callback _ _). Qed.

Lemma searchBeatsByTitle_store (lower : string → string) (title : string) (s : Store) :
  (searchBeatsByTitle lower title s).2 = s.
Proof. handler. by destruct (filter_callback _ _). Qed.

(** A request that respects the marks keeps every record under its own id. *)
Lemma serve_own_ids (r : Request) (s : Store) :
  own_ids s → respects_marks r s → own_ids (serve r s).2.
Proof.
  intros Hs Hr.
  destruct r as [uuid time body| |id|time id body|id|time id|lower artist|lower title|time id]; cbn [serve].
  - destruct Hr as [Hbody _]. rewrite createBeat_eq. cbn [snd].
    apply own_ids_insert; [done|]. by rewrite createBeat_id.
  - done.
  - handler. by destruct (s !! JStr id).
  - destruct Hr as [Hbody _].
    destruct (s !! JStr id) as [beat|] eqn:Hid.
    + rewrite (updateBeat_present s time id body beat Hid). cbn [snd].
      apply own_ids_insert; [done|].
      by rewrite prop_insert_ne, prop_spread_absent.
    + by rewrite updateBeat_absent.
  - destruct (s !! JStr id) as [beat|] eqn:Hid.
    + rewrite (deleteBeat_present s id beat Hid). by apply own_ids_delete.
    + by rewrite deleteBeat_absent.
  - destruct (s !! JStr id) as [beat|] eqn:Hid; [|by rewrite buyBeat_absent].
    destruct (truthy (prop beat "sold")) eqn:Hsold.
    + by rewrite (buyBeat_sold s time id beat).
    + rewrite (buyBeat_unsold s time id beat Hid Hsold). cbn [snd].
      by apply own_ids_insert.
  - by rewrite searchBeatsByArtist_store.
  - by rewrite searchBeatsByTitle_store.
  - destruct (s !! JStr id) as [beat|] eqn:Hid; [|by rewrite featureBeat_absent].
    rewrite (featureBeat_present s time id beat Hid). cbn [snd].
    by apply own_ids_insert.
Qed.

(** Such a request leaves a sold record sold, as long as it leaves it there. *)
Lemma serve_keeps_sold (r : Request) (s : Store) (k : JsVal) :
  own_ids s → respects_marks r s → sold_at s k →
  is_Some ((serve r s).2 !! k) → sold_at (serve r s).2 k.
Proof.
  intros Hs Hr (sold & Hk & Hmark).
  destruct r as [uuid time body| |id|time id body|id|time id|lower artist|lower title|time id]; cbn [serve].
  - destruct Hr as [Hbody Hfresh]. rewrite createBeat_eq. cbn [snd].
    rewrite createBeat_id by done. intros _.
    exists sold. rewrite lookup_insert_ne; [done|congruence].
  - intros _. by exists sold.
  - handler. destruct (s !! JStr id); intros _; by exists sold.
  - destruct Hr as [_ Hbody].
    destruct (s !! JStr id) as [beat|] eqn:Hid.
    + rewrite (updateBeat_present s time id body beat Hid). cbn [snd]. intros _.
      rewrite (Hs _ _ Hid).
      destruct (decide (JStr id = k)) as [<-|Hne].
      * eexists. split; [apply lookup_insert_eq|].
        rewrite prop_insert_ne, prop_spread_absent by done. congruence.
      * exists sold. by rewrite lookup_insert_ne.
    + rewrite updateBeat_absent by done. intros _. by exists sold.
  - destruct (s !! JStr id) as [beat|] eqn:Hid.
    + rewrite (deleteBeat_present s id beat Hid). cbn [snd].
      intros [beat' [Hne Hk']%lookup_delete_Some].
      exists sold. split; [|done]. by apply lookup_delete_Some.
    + rewrite deleteBeat_absent by done. intros _. by exists sold.
  - destruct (s !! JStr id) as [beat|] eqn:Hid;
      [|rewrite buyBeat_absent by done; intros _; by exists sold].
    destruct (truthy (prop beat "sold")) eqn:Hsold.
    + rewrite (buyBeat_sold s time id beat) by done. intros _. by exists sold.
    + rewrite (buyBeat_unsold s time id beat Hid Hsold). cbn [snd]. intros _.
      rewrite !prop_insert_ne by done. rewrite (Hs _ _ Hid).
      destruct (decide (JStr id = k)) as [<-|Hne].
      * rewrite Hid in Hk. injection Hk as ->. by rewrite Hmark in Hsold.
      * exists sold. by rewrite lookup_insert_ne.
  - rewrite searchBeatsByArtist_store. intros _. by exists sold.
  - rewrite searchBeatsByTitle_store. intros _. by exists sold.
  - destruct (s !! JStr id) as [beat|] eqn:Hid;
      [|rewrite featureBeat_absent by done; intros _; by exists sold].
    rewrite (featureBeat_present s time id beat Hid). cbn [snd]. intros _.
    rewrite !prop_insert_ne by done. rewrite (Hs _ _ Hid).
    destruct (decide (JStr id = k)) as [<-|Hne].
    + eexists. split; [apply lookup_insert_eq|].
      rewrite !prop_insert_ne by done. congruence.
    + exists sold. by rewrite lookup_insert_ne.
Qed.

(** Only a delete of the id takes the record stored under it away. *)
Lemma serve_keeps_record (r : Request) (s : Store) (id : string) :
  r ≠ DeleteBeat id → is_Some (s !! JStr id) → is_Some ((serve r s).2 !! JStr id).
Proof.
  intros Hr Hid.
  assert (Hins : ∀ k beat, is_Some (<[k := beat]> s !! JStr id)).
  { intros k beat. rewrite lookup_insert. by case_decide. }
  destruct r as [uuid time body| |id'|time id' body|id'|time id'|lower artist|lower title|time id']; cbn [serve].
  - rewrite createBeat_eq. apply Hins.
  - done.
  - handler. by destruct (s !! JStr id').
  - destruct (s !! JStr id') as [beat|] eqn:Hid'.
    + rewrite (updateBeat_present s time id' body beat Hid'). apply Hins.
    + by rewrite updateBeat_absent.
  - destruct (s !! JStr id') as [beat|] eqn:Hid'.
    + rewrite (deleteBeat_present s id' beat Hid'). cbn [snd].
      rewrite lookup_delete_ne; [done|]. congruence.
    + by rewrite deleteBeat_absent.
  - destruct (s !! JStr id') as [beat|] eqn:Hid'; [|by rewrite buyBeat_absent].
    destruct (truthy (prop beat "sold")) eqn:Hsold.
    + by rewrite (buyBeat_sold s time id' beat).
    + rewrite (buyBeat_unsold s time id' beat Hid' Hsold). apply Hins.
  - by rewrite searchBeatsByArtist_store.
  - by rewrite searchBeatsByTitle_store.
  - destruct (s !! JStr id') as [beat|] eqn:Hid'; [|by rewrite featureBeat_absent].
    rewrite (featureBeat_present s time id' beat Hid'). apply Hins.
Qed.

(** A successful buy leaves the record sold, in a store that keeps records
    under their own ids. *)
Lemma buyBeat_marks (time : Z) (id : string) (s : Store) :
  own_ids s → is_error (buyBeat time id s).1 = false →
  own_ids (buyBeat time id s).2 ∧ sold_at (buyBeat time id s).2 (JStr id).
Proof.
  intros Hs Hok. split; [by apply (serve_own_ids (PostBuy time id))|].
  revert Hok.
  destruct (s !! JStr id) as [beat|] eqn:Hid; [|by rewrite buyBeat_absent].
  destruct (truthy (prop beat "sold")) eqn:Hsold;
    [by rewrite (buyBeat_sold s time id beat)|].
  rewrite (buyBeat_unsold s time id beat Hid Hsold). cbn [snd]. intros _.
  rewrite !prop_insert_ne by done. rewrite (Hs _ _ Hid).
  eexists. split; [apply lookup_insert_eq|].
  by rewrite prop_insert_ne, prop_insert_eq.
Qed.

(** C1, as the code has it.  In a store that keeps every record under its own
    id, a record marked sold stays in the store and stays sold through every
    run of requests that neither deletes it nor hands [id] or [sold] to the
    canister in a body (and creates under unused ids only): the run keeps
    records under their own ids, and no request of it takes the mark away.
    That holds in particular for a record just bought. *)
Theorem sold_stays_sold (rs : list Request) (s : Store) (id : string) :
  own_ids s → DeleteBeat id ∉ rs →
  (respects_marks_run rs s → sold_at s (JStr id) →
     own_ids (run rs s) ∧ sold_at (run rs s) (JStr id)) ∧
  (∀ time, is_error (buyBeat time id s).1 = false →
     respects_marks_run rs (buyBeat time id s).2 →
     sold_at (run rs (buyBeat time id s).2) (JStr id)).
Proof.
  intros Hs Hdel.
  assert (Hgen : ∀ s, own_ids s → respects_marks_run rs s → sold_at s (JStr id) →
                   own_ids (run rs s) ∧ sold_at (run rs s) (JStr id)).
  { clear s Hs. induction rs as [|r rs IH]; intros s Hs Hrs Hsold; [done|].
    destruct Hrs as [Hr Hrs]. apply not_elem_of_cons in Hdel as [Hne Hdel].
    cbn [run]. apply IH; [done|by apply serve_own_ids|done|].
    apply serve_keeps_sold; [done..|].
    apply serve_keeps_record; [done|]. destruct Hsold as (beat & Hbeat & _). by eexists. }
  split; [by apply Hgen|].
  intros time Hok Hrs'. destruct (buyBeat_marks time id s Hs Hok) as [Hs' Hsold].
  by apply Hgen.
Qed.

Lemma own_ids_shop : own_ids shop.
Proof.
  apply (serve_own_ids (PostBeats "a" 5000000 night) ∅); [|done].
  intros k beat Hk. by rewrite lookup_empty in Hk.
Qed.

Lemma sold_stays_sold_witness :
  is_error (buyBeat 7000000 "a" shop).1 = false ∧
  sold_at (run [PostFeature 8000000 "a"; PutBeat 9000000 "a" {["price" := JNum (Q2Qc 5)]};
                PostBuy 9500000 "a"; DeleteBeat "b"]
               (buyBeat 7000000 "a" shop).2) (JStr "a").
Proof.
  split; [reflexivity|].
  apply (sold_stays_sold _ shop "a" own_ids_shop).
  - intros Hin. repeat (apply elem_of_cons in Hin as [Heq|Hin]; [discriminate Heq|]).
    by apply elem_of_nil in Hin.
  - reflexivity.
  - cbn [respects_marks_run respects_marks]. repeat split; reflexivity.
Defined.

(** C1, as stated, fails: an update whose body names [sold] writes it, so a
    bought record is on sale again while it is still in the store. *)
Lemma update_unsells :
  is_error (buyBeat 7000000 "a" shop).1 = false ∧
  sold_at (buyBeat 7000000 "a" shop).2 (JStr "a") ∧
  (λ beat, prop beat "sold") <$>
    (updateBeat 8000000 "a" {["sold" := JBool false]} (buyBeat 7000000 "a" shop).2).2 !! JStr "a"
    = Some (JBool false).
Proof.
  split; [reflexivity|]. split; [|reflexivity].
  eexists. split; [vm_compute; reflexivity | reflexivity].
Qed.

(** ** Create *)

Lemma beat_fields_no_id (title artist : string) (price : Qc) (url : string) :
  beat_fields title artist price url !! "id" = None.
Proof. unfold beat_fields. by rewrite !lookup_insert_ne, lookup_singleton_ne. Qed.






(** ** The update stamp *)

Lemma elem_of_changed (s s' : Store) (k : JsVal) : k ∈ changed s s' ↔ s !! k ≠ s' !! k.
Proof.
  unfold changed. rewrite elem_of_filter, elem_of_union, !elem_of_dom.
  split; [by intros [H _]|]. intros H. split; [done|].
  destruct (s !! k) eqn:Hs; [left; by eexists|].
  destruct (s' !! k) eqn:Hs'; [right; by eexists|done].
Qed.

(** What a request does to the store: nothing, or it removes one key, or it
    writes one record, whose stamp is null for a create and a date for an
    update, a buy and a feature. *)
Lemma serve_writes (r : Request) (s : Store) :
  (serve r s).2 = s ∨
  (∃ id, r = DeleteBeat id ∧ (serve r s).2 = delete (JStr id) s) ∨
  (∃ key beat,
     (serve r s).2 = <[key := beat]> s ∧
     (∃ status, (serve r s).1 = Json status (One beat)) ∧
     match r with
     | PostBeats _ _ _ => prop beat "updatedAt" = JNull
     | PutBeat time _ _ | PostBuy time _ | PostFeature time _ =>
         prop beat "updatedAt" = getCurrentDate time
     | _ => False
     end).
Proof.
  destruct r as [uuid time body| |id|time id body|id|time id|lower artist|lower title|time id]; cbn [serve].
  - right; right. rewrite createBeat_eq. do 2 eexists. split; [done|].
    split; [by eexists|]. rewrite !prop_insert_ne by done. apply prop_insert_eq.
  - by left.
  - left. handler. by destruct (s !! JStr id).
  - destruct (s !! JStr id) as [beat|] eqn:Hid; [|left; by rewrite updateBeat_absent].
    right; right. rewrite (updateBeat_present s time id body beat Hid).
    do 2 eexists. split; [done|]. split; [by eexists|]. by rewrite prop_insert_eq.
  - destruct (s !! JStr id) as [beat|] eqn:Hid; [|left; by rewrite deleteBeat_absent].
    right; left. exists id. by rewrite (deleteBeat_present s id beat Hid).
  - destruct (s !! JStr id) as [beat|] eqn:Hid; [|left; by rewrite buyBeat_absent].
    destruct (truthy (prop beat "sold")) eqn:Hsold;
      [left; by rewrite (buyBeat_sold s time id beat)|].
    right; right. rewrite (buyBeat_unsold s time id beat Hid Hsold).
    do 2 eexists. split; [done|]. split; [by eexists|]. by rewrite prop_insert_eq.
  - left. apply searchBeatsByArtist_store.
  - left. apply searchBeatsByTitle_store.
  - destruct (s !! JStr id) as [beat|] eqn:Hid; [|left; by rewrite featureBeat_absent].
    right; right. rewrite (featureBeat_present s time id beat Hid).
    do 2 eexists. split; [done|]. split; [by eexists|]. by rewrite prop_insert_eq.
Qed.

Lemma mutated_step_unchanged (r : Request) (s : Store) (g : gset JsVal) (k : JsVal) :
  s !! k = (serve r s).2 !! k → (k ∈ mutated_step r s g ↔ k ∈ g).
Proof.
  intros Hk. assert (Hsame : k ∉ changed s (serve r s).2).
  { rewrite elem_of_changed. intros Hne. by apply Hne. }
  destruct r; cbn [mutated_step]; rewrite ?elem_of_difference, ?elem_of_union; tauto.
Qed.

Lemma serve_stamps_agree (r : Request) (s : Store) (g : gset JsVal) :
  stamps_agree s g → stamps_agree (serve r s).2 (mutated_step r s g).
Proof.
  intros Hs k beat Hk.
  destruct (decide (s !! k = (serve r s).2 !! k)) as [Hsame|Hdiff].
  { rewrite mutated_step_unchanged by done. apply Hs. by rewrite Hsame. }
  assert (Hch : k ∈ changed s (serve r s).2) by by rewrite elem_of_changed.
  destruct (serve_writes r s) as [Hnone|[(id & -> & Hdel)|(key & new & Hput & _ & Hstamp)]].
  - by rewrite Hnone in Hdiff.
  - rewrite Hdel in Hk. apply lookup_delete_Some in Hk as [Hne Hk].
    by rewrite Hdel, lookup_delete_ne in Hdiff.
  - rewrite Hput in Hk, Hdiff. rewrite lookup_insert in Hk, Hdiff.
    case_decide as Hkey; [|done]. injection Hk as ->.
    destruct r; try done; cbn [mutated_step];
      rewrite ?elem_of_difference, ?elem_of_union, Hstamp.
    + tauto.
    + split; [done|]. intros Hnot. destruct Hnot. by right.
    + split; [done|]. intros Hnot. destruct Hnot. by right.
    + split; [done|]. intros Hnot. destruct Hnot. by right.
Qed.

Lemma run_stamps_agree (rs : list Request) (s : Store) (g : gset JsVal) :
  stamps_agree s g → stamps_agree (run rs s) (mutated rs s g).
Proof.
  revert s g. induction rs as [|r rs IH]; intros s g Hs; [done|].
  cbn [run mutated]. by apply IH, serve_stamps_agree.
Qed.

(** C5.  In every store a run of requests reaches from the empty one, a
    record has [updatedAt] null exactly when no update, buy or feature has
    changed it since a create last wrote it.  A create replies with, and
    stores, a record whose [updatedAt] is null, and every update, buy and
    feature that succeeds replies with, and stores, a record whose [updatedAt]
    is the current date. *)
Theorem updatedAt_null_iff_unmutated :
  (∀ (rs : list Request) k beat,
     run rs ∅ !! k = Some beat →
     (prop beat "updatedAt" = JNull ↔ k ∉ mutated rs ∅ ∅)) ∧
  (∀ uuid time body (s : Store),
     ∃ beat key,
       (createBeat uuid time body s).1 = Json 201 (One beat) ∧
       (createBeat uuid time body s).2 !! key = Some beat ∧
       prop beat "updatedAt" = JNull) ∧
  (∀ (r : Request) (s : Store) status beat,
     is_mutation r = true → (serve r s).1 = Json status (One beat) →
     ∃ key ms,
       (serve r s).2 !! key = Some beat ∧ prop beat "updatedAt" = JDate ms).
Proof.
  split; [|split].
  - intros rs. apply run_stamps_agree. intros k beat Hk. by rewrite lookup_empty in Hk.
  - intros uuid time body s. rewrite createBeat_eq. do 2 eexists.
    split; [done|]. split; [apply lookup_insert_eq|].
    rewrite !prop_insert_ne by done. apply prop_insert_eq.
  - intros r s status beat Hr.
    destruct r as [| | |time id body| |time id| | |time id]; try done; cbn [serve].
    + destruct (s !! JStr id) as [old|] eqn:Hid; [|by rewrite updateBeat_absent].
      rewrite (updateBeat_present s time id body old Hid). cbn [fst snd].
      intros [= <- <-]. do 2 eexists. split; [apply lookup_insert_eq|apply prop_insert_eq].
    + destruct (s !! JStr id) as [old|] eqn:Hid; [|by rewrite buyBeat_absent].
      destruct (truthy (prop old "sold")) eqn:Hsold;
        [by rewrite (buyBeat_sold s time id old)|].
      rewrite (buyBeat_unsold s time id old Hid Hsold). cbn [fst snd].
      intros [= <- <-]. do 2 eexists. split; [apply lookup_insert_eq|apply prop_insert_eq].
    + destruct (s !! JStr id) as [old|] eqn:Hid; [|by rewrite featureBeat_absent].
      rewrite (featureBeat_present s time id old Hid). cbn [fst snd].
      intros [= <- <-]. do 2 eexists. split; [apply lookup_insert_eq|apply prop_insert_eq].
Qed.

Lemma updatedAt_null_iff_unmutated_witness :
  is_Some (shop !! JStr "a") ∧ JStr "a" ∉ mutated [PostBeats "a" 5000000 night] ∅ ∅.
Proof.
  split; [by eexists|].
  apply (proj1 updatedAt_null_iff_unmutated [PostBeats "a" 5000000 night] (JStr "a") _ eq_refl).
  reflexivity.
Defined.

(** ** Search *)

Lemma prefix_app (p s : string) : String.prefix p s = true ↔ ∃ t, s = p +:+ t.
Proof.
  revert s. induction p as [|c p IH]; intros s.
  - split; [intros _; by exists s|]. intros _. by destruct s.
  - destruct s as [|d s]; cbn; [split; [done|by intros [t Ht]]|].
    destruct (ascii_dec c d) as [->|Hne].
    + rewrite IH. split; intros [t Ht]; exists t.
      * by rewrite Ht.
      * by injection Ht.
    + split; [done|]. intros [t Ht]. by injection Ht.
Qed.

(** [includes] finds the stretches. *)
Lemma includes_app (hay needle : string) : includes hay needle = true ↔ occurs needle hay.
Proof.
  unfold occurs.
  induction hay as [|c hay IH]; cbn [includes]; rewrite orb_true_iff, prefix_app.
  - split.
    + intros [[t Ht]|?]; [|done]. by exists "", t.
    + intros (pre & suf & H). left. exists suf. by destruct pre.
  - rewrite IH. split.
    + intros [[t Ht]|(pre & suf & Ht)]; [by exists "", t|].
      exists (String c pre), suf. by rewrite Ht.
    + intros (pre & suf & Ht). destruct pre as [|d pre]; [left; by exists suf|].
      right. exists pre, suf. by injection Ht.
Qed.

Lemma field_includes_matches (lower : string → string) (field query text : string)
    (beat : Obj) :
  prop beat field = JStr text →
  ∃ keep, field_includes lower field (lower query) beat = Some keep ∧
          (keep = true ↔ field_matches lower field query beat).
Proof.
  intros Htext. unfold field_includes. rewrite Htext. cbn. eexists. split; [done|].
  rewrite includes_app. split.
  - intros Hocc. by exists text.
  - intros (text' & Htext' & Hocc). congruence.
Qed.

Lemma filter_callback_selected {A : Type} (p : A → option bool) (P : A → Prop) (xs : list A) :
  (∀ x, x ∈ xs → ∃ keep, p x = Some keep ∧ (keep = true ↔ P x)) →
  ∃ ys, filter_callback p xs = Some ys ∧ Selected P xs ys.
Proof.
  induction xs as [|x xs IH]; intros Hp; [exists []; split; [done|constructor]|].
  destruct (Hp x) as (keep & Hx & Hkeep); [by left|].
  destruct IH as (ys & Hys & Hsel); [intros y Hy; apply Hp; by right|].
  cbn. rewrite Hx, Hys. destruct keep.
  - eexists. split; [done|]. constructor; [by apply Hkeep|done].
  - eexists. split; [done|]. constructor; [|done]. intros HP. by apply Hkeep in HP.
Qed.

Lemma Selected_none {A : Type} (P : A → Prop) (xs ys : list A) :
  Selected P xs ys → (∀ x, x ∈ xs → ¬ P x) → ys = [].
Proof.
  induction 1 as [|x xs ys HP _ _|x xs ys _ _ IH]; intros Hnone; [done| |].
  - destruct (Hnone x); [by left|done].
  - apply IH. intros y Hy. apply Hnone. by right.
Qed.

Lemma stored_field_is_text (field : string) (s : Store) (beat : Obj) :
  field_is_text field s → beat ∈ (map_to_list s).*2 → ∃ text, prop beat field = JStr text.
Proof.
  intros Hs ([k beat'] & -> & Hin)%list_elem_of_fmap.
  apply elem_of_map_to_list in Hin. by apply (Hs k).
Qed.

Lemma elem_of_stored (s : Store) (beat : Obj) :
  beat ∈ (map_to_list s).*2 ↔ ∃ k, s !! k = Some beat.
Proof.
  rewrite list_elem_of_fmap. split.
  - intros ([k beat'] & -> & Hin). exists k. by apply elem_of_map_to_list.
  - intros [k Hk]. exists (k, beat). split; [done|]. by apply elem_of_map_to_list.
Qed.

Lemma filter_callback_throws {A : Type} (p : A → option bool) (xs : list A) :
  filter_callback p xs = None ↔ ∃ x, x ∈ xs ∧ p x = None.
Proof.
  induction xs as [|x xs IH]; cbn.
  - split; [done|]. intros (x & Hx & _). by apply elem_of_nil in Hx.
  - destruct (p x) as [keep|] eqn:Hpx.
    + destruct (filter_callback p xs) as [ys|].
      * split; [done|]. intros (y & [->|Hy]%elem_of_cons & Hpy); [congruence|].
        assert (Hnone : Some ys = None) by (apply IH; by exists y). done.
      * split; [|done]. intros _. destruct (proj1 IH eq_refl) as (y & Hy & Hpy).
        exists y. split; [by right|done].
    + split; [|done]. intros _. exists x. split; [by left|done].
Qed.

Lemma field_includes_throws (lower : string → string) (field needle : string) (beat : Obj) :
  field_includes lower field needle beat = None ↔ ∀ text, prop beat field ≠ JStr text.
Proof.
  unfold field_includes, toLowerCase_method.
  destruct (prop beat field) as [| | | |text| |]; split; try done.
  intros Hne. by destruct (Hne text).
Qed.

Lemma field_search_throws (lower : string → string) (field needle : string) (s : Store) :
  filter_callback (field_includes lower field needle) (map_to_list s).*2 = None
  ↔ field_not_text field s.
Proof.
  rewrite filter_callback_throws. split.
  - intros (beat & [k Hk]%elem_of_stored & Hnone). exists k, beat.
    split; [done|]. exact (proj1 (field_includes_throws _ _ _ _) Hnone).
  - intros (k & beat & Hk & Hne). exists beat. split.
    + apply elem_of_stored. by exists k.
    + by apply field_includes_throws.
Qed.

(** Every record holds a string in the field, or one does not. *)
Lemma field_text_or_not (lower : string → string) (field needle : string) (s : Store) :
  (field_not_text field s ∧
   filter_callback (field_includes lower field needle) (map_to_list s).*2 = None) ∨
  (field_is_text field s ∧
   ∃ found, filter_callback (field_includes lower field needle) (map_to_list s).*2
              = Some found).
Proof.
  destruct (filter_callback _ _) as [found|] eqn:Hrun.
  - right. split; [|by exists found]. intros k beat Hk.
    destruct (prop beat field) as [| | | |text| |] eqn:Hfield; [..|by exists text| |];
      exfalso;
      (assert (Hnone : filter_callback (field_includes lower field needle)
                         (map_to_list s).*2 = None);
       [apply filter_callback_throws; exists beat; split;
          [apply elem_of_stored; by exists k
          |unfold field_includes, toLowerCase_method; by rewrite Hfield]
       |congruence]).
  - left. split; [|done]. by apply (field_search_throws lower field needle).
Qed.

(** One search, on one field. *)
Lemma search_field (lower : string → string) (field query : string) (s : Store) :
  (field_not_text field s ∧
   filter_callback (field_includes lower field (lower query)) (map_to_list s).*2 = None) ∨
  (field_is_text field s ∧
   ∃ found,
     filter_callback (field_includes lower field (lower query)) (map_to_list s).*2
       = Some found ∧
     Selected (field_matches lower field query) (map_to_list s).*2 found ∧
     ((∀ beat, beat ∈ (map_to_list s).*2 → ¬ field_matches lower field query beat) →
      found = [])).
Proof.
  destruct (field_text_or_not lower field (lower query) s) as [Hnot|[Htext _]]; [by left|].
  right. split; [done|].
  destruct (filter_callback_selected (field_includes lower field (lower query))
              (field_matches lower field query) (map_to_list s).*2) as (found & Hrun & Hsel).
  { intros beat Hbeat. destruct (stored_field_is_text _ _ _ Htext Hbeat) as [text Hfield].
    by apply (field_includes_matches _ _ _ text). }
  exists found. split; [done|]. split; [done|]. by apply Selected_none.
Qed.

(** C7, as the code has it.  Let [all] be the stored records in the order
    [getBeats] lists them.  When some stored record holds no string as its
    artist, [searchBeatsByArtist] throws, whatever the query.  Otherwise it
    replies 200 with exactly the records of [all] whose lowered artist has the
    lowered query as a stretch of it, in the order of [all], and with the empty
    list when no record matches.  The same holds of [searchBeatsByTitle] and
    the title.  The lowering is the runtime's, whatever it does. *)
Theorem search_selects_matches (toLowerCase : string → string) (query : string)
    (s : Store) (all : list Obj) :
  (getBeats s).1 = Json 200 (Many all) →
  ((field_not_text "artist" s ∧ searchBeatsByArtist toLowerCase query s = (Thrown, s)) ∨
   (field_is_text "artist" s ∧
    ∃ found,
      searchBeatsByArtist toLowerCase query s = (Json 200 (Many found), s) ∧
      Selected (field_matches toLowerCase "artist" query) all found ∧
      ((∀ beat, beat ∈ all → ¬ field_matches toLowerCase "artist" query beat) →
       found = []))) ∧
  ((field_not_text "title" s ∧ searchBeatsByTitle toLowerCase query s = (Thrown, s)) ∨
   (field_is_text "title" s ∧
    ∃ found,
      searchBeatsByTitle toLowerCase query s = (Json 200 (Many found), s) ∧
      Selected (field_matches toLowerCase "title" query) all found ∧
      ((∀ beat, beat ∈ all → ¬ field_matches toLowerCase "title" query beat) →
       found = []))).
Proof.
  handler. intros [= <-]. split.
  - destruct (search_field toLowerCase "artist" query s)
      as [[Hnot ->]|(Htext & found & -> & Hsel & Hnone)].
    + by left.
    + right. split; [done|]. by exists found.
  - destruct (search_field toLowerCase "title" query s)
      as [[Hnot ->]|(Htext & found & -> & Hsel & Hnone)].
    + by left.
    + right. split; [done|]. by exists found.
Qed.

Lemma search_selects_matches_witness :
  ∃ found,
    searchBeatsByArtist lower_ascii "wAv" shop = (Json 200 (Many found), shop) ∧
    Selected (field_matches lower_ascii "artist" "wAv") (map_to_list shop).*2 found.
Proof.
  destruct (proj1 (search_selects_matches lower_ascii "wAv" shop _ eq_refl))
    as [[_ Hthrown]|(_ & found & Hrun & Hsel & _)].
  - discriminate Hthrown.
  - exists found. split; [exact Hrun | exact Hsel].
Defined.

(** C7, as stated, fails: a create takes any body, and after one with no
    artist the artist search sends no list at all, empty or not: it throws. *)
Lemma search_throws_without_artist :
  is_error (createBeat "a" 5000000 ∅ ∅).1 = false ∧
  searchBeatsByArtist lower_ascii "wave" (createBeat "a" 5000000 ∅ ∅).2
    = (Thrown, (createBeat "a" 5000000 ∅ ∅).2).
Proof. split; reflexivity. Qed.

(** * Further properties of the handlers *)

(** ** Create and read *)

Lemma createBeat_key (uuid : string) (time : Z) (body : Obj) :
  prop (<["featured" := JBool false]>
          (<["sold" := JBool false]>
             (<["updatedAt" := JNull]>
                (spread (<["createdAt" := getCurrentDate time]> {["id" := JStr uuid]}) body))))
       "id" = created_key uuid body.
Proof.
  unfold created_key. destruct (body !! "id") as [v|] eqn:Hbody.
  - rewrite !prop_insert_ne by done. unfold prop. by rewrite lookup_spread, Hbody.
  - by apply createBeat_id.
Qed.

(** X1.  The beat a create replies with is stored under its [id]: when that
    is a string, the read of it replies with the same beat; when it is not (the
    body named one), no read by id reaches the new record, and every read is
    answered as before the create.  Without an [id] in the body the id is the
    uuid drawn. *)
Theorem create_then_read (uuid : string) (time : Z) (body : Obj) (s : Store) :
  ∃ beat,
    (createBeat uuid time body s).1 = Json 201 (One beat) ∧
    prop beat "id" = created_key uuid body ∧
    (∀ id, prop beat "id" = JStr id →
       getBeatById id (createBeat uuid time body s).2
         = (Json 200 (One beat), (createBeat uuid time body s).2)) ∧
    ((∀ id, prop beat "id" ≠ JStr id) →
       ∀ id, (getBeatById id (createBeat uuid time body s).2).1 = (getBeatById id s).1) ∧
    (body !! "id" = None → prop beat "id" = JStr uuid).
Proof.
  rewrite createBeat_eq. cbn [fst snd]. eexists. split; [done|].
  split; [apply createBeat_key|]. split; [|split].
  - intros id Hid. apply getBeatById_present. rewrite Hid. apply lookup_insert_eq.
  - intros Hid id. handler. rewrite lookup_insert_ne by apply Hid.
    by destruct (s !! JStr id).
  - intros Hbody. by apply createBeat_id.
Qed.

Lemma create_then_read_witness :
  ∃ beat,
    (createBeat "a" 5000000 night ∅).1 = Json 201 (One beat) ∧
    getBeatById "a" shop = (Json 200 (One beat), shop).
Proof.
  destruct (create_then_read "a" 5000000 night ∅) as (beat & Hreply & _ & Hread & _ & Hid).
  exists beat. split; [exact Hreply|]. exact (Hread "a" (Hid eq_refl)).
Defined.

(** X2.  Whatever the body of a create says, the created beat has [sold] and
    [featured] false and [updatedAt] null.  Every other property the body
    names is taken from the body, [id] and [createdAt] too; [createdAt] is the
    current date only when the body names none. *)
Theorem create_overrides_flags_only (uuid : string) (time : Z) (body : Obj) (s : Store) :
  ∃ beat,
    (createBeat uuid time body s).1 = Json 201 (One beat) ∧
    beat !! "sold" = Some (JBool false) ∧
    beat !! "featured" = Some (JBool false) ∧
    beat !! "updatedAt" = Some JNull ∧
    (∀ f v, f ≠ "sold" → f ≠ "featured" → f ≠ "updatedAt" →
       body !! f = Some v → beat !! f = Some v) ∧
    (body !! "createdAt" = None → beat !! "createdAt" = Some (getCurrentDate time)) ∧
    (∀ f, f ≠ "sold" → f ≠ "featured" → f ≠ "updatedAt" → f ≠ "id" → f ≠ "createdAt" →
       body !! f = None → beat !! f = None).
Proof.
  rewrite createBeat_eq. cbn [fst]. eexists. split; [done|].
  split; [by rewrite lookup_insert_ne, lookup_insert_eq|].
  split; [by rewrite lookup_insert_eq|].
  split; [rewrite !lookup_insert_ne by done; apply lookup_insert_eq|].
  split; [|split].
  - intros f v Hs Hf Hu Hv. by rewrite !lookup_insert_ne, lookup_spread, Hv.
  - intros Hc. rewrite !lookup_insert_ne, lookup_spread, Hc by done. apply lookup_insert_eq.
  - intros f Hs Hf Hu Hi Hc Hv. rewrite !lookup_insert_ne, lookup_spread, Hv by done.
    by rewrite lookup_insert_ne, lookup_singleton_ne.
Qed.

Lemma create_overrides_flags_only_witness :
  ∃ beat,
    (createBeat "a" 5000000 {["sold" := JBool true; "title" := JStr "Night"]} ∅).1
      = Json 201 (One beat) ∧
    beat !! "sold" = Some (JBool false) ∧ beat !! "title" = Some (JStr "Night").
Proof.
  destruct (create_overrides_flags_only "a" 5000000
              {["sold" := JBool true; "title" := JStr "Night"]} ∅)
    as (beat & Hreply & Hsold & _ & _ & Hbody & _).
  exists beat. split; [exact Hreply|]. split; [exact Hsold|].
  apply Hbody; [discriminate..|reflexivity].
Defined.

(** X3.  A create whose body names an [id] stores the beat under that id and
    not under the uuid drawn: the record that was stored under the named id is
    replaced by the new, unsold one, and what was stored under the uuid stays
    as it was. *)
Theorem create_under_body_id (uuid : string) (time : Z) (body : Obj) (s : Store) (v : JsVal) :
  body !! "id" = Some v →
  ∃ beat,
    createBeat uuid time body s = (Json 201 (One beat), <[v := beat]> s) ∧
    prop beat "id" = v ∧
    prop beat "sold" = JBool false ∧
    (v ≠ JStr uuid →
       (createBeat uuid time body s).2 !! JStr uuid = s !! JStr uuid) ∧
    (∀ id, v = JStr id →
       getBeatById id (createBeat uuid time body s).2
         = (Json 200 (One beat), (createBeat uuid time body s).2)).
Proof.
  intros Hbody.
  assert (Hkey : created_key uuid body = v) by (unfold created_key; by rewrite Hbody).
  rewrite createBeat_eq, createBeat_key, Hkey. cbn [snd]. eexists. split; [done|].
  split; [by rewrite createBeat_key|].
  split; [by rewrite prop_insert_ne, prop_insert_eq|]. split.
  - intros Hne. by rewrite lookup_insert_ne.
  - intros id ->. apply getBeatById_present, lookup_insert_eq.
Qed.

Lemma create_under_body_id_witness :
  ∃ beat,
    createBeat "z" 9000000 {["id" := JStr "a"]} (buyBeat 7000000 "a" shop).2
      = (Json 201 (One beat), <[JStr "a" := beat]> (buyBeat 7000000 "a" shop).2) ∧
    prop beat "sold" = JBool false.
Proof.
  assert (Hbody : ({["id" := JStr "a"]} : Obj) !! "id" = Some (JStr "a")) by reflexivity.
  destruct (create_under_body_id "z" 9000000 {["id" := JStr "a"]}
              (buyBeat 7000000 "a" shop).2 (JStr "a") Hbody)
    as (beat & Hrun & _ & Hsold & _).
  exists beat. split; [exact Hrun | exact Hsold].
Defined.

(** ** The list of all beats *)

(** X4.  [getBeats] replies 200 with every stored record, once for each key
    it is stored under and nothing else, and leaves the store as it is. *)
Theorem getBeats_lists_store (s : Store) :
  ∃ beats,
    getBeats s = (Json 200 (Many beats), s) ∧
    length beats = size s ∧
    (∀ beat, beat ∈ beats ↔ ∃ k, s !! k = Some beat).
Proof.
  exists (map_to_list s).*2. split; [done|]. split.
  - by rewrite length_fmap, length_map_to_list.
  - apply elem_of_stored.
Qed.

(** X5.  A create under a key that is not in use adds its beat to the list
    [getBeats] gives and keeps all the others; a delete that succeeds takes
    its beat off the list and keeps all the others. *)
Theorem getBeats_follows_writes (s : Store) :
  (∀ uuid time body beat,
     s !! created_key uuid body = None →
     (createBeat uuid time body s).1 = Json 201 (One beat) →
     (map_to_list (createBeat uuid time body s).2).*2 ≡ₚ beat :: (map_to_list s).*2) ∧
  (∀ id beat,
     (deleteBeat id s).1 = Json 200 (One beat) →
     (map_to_list s).*2 ≡ₚ beat :: (map_to_list (deleteBeat id s).2).*2).
Proof.
  split.
  - intros uuid time body beat Hfree. rewrite createBeat_eq, createBeat_key. cbn [fst snd].
    intros [= <-]. by rewrite map_to_list_insert.
  - intros id beat. destruct (s !! JStr id) as [old|] eqn:Hid.
    + rewrite (deleteBeat_present s id old Hid). cbn [fst snd]. intros [= <-].
      by rewrite <- (map_to_list_delete s (JStr id) old Hid).
    + by rewrite deleteBeat_absent.
Qed.

Lemma getBeats_follows_writes_witness :
  (map_to_list shop).*2 ≡ₚ
    <["featured" := JBool false]>
      (<["sold" := JBool false]>
         (<["updatedAt" := JNull]>
            (spread (<["createdAt" := JDate 5]> {["id" := JStr "a"]}) night)))
    :: (map_to_list (deleteBeat "a" shop).2).*2.
Proof. exact (proj2 (getBeats_follows_writes shop) "a" _ eq_refl). Defined.

(** ** What one request can touch *)

(** X6.  A request changes the store under one key at most, and the number
    of stored records by one at most; the reads and the searches change
    nothing. *)
Theorem request_touches_one_key (r : Request) (s : Store) :
  (∃ k, ∀ k', k' ≠ k → (serve r s).2 !! k' = s !! k') ∧
  (size (serve r s).2 ≤ S (size s))%nat ∧
  (size s ≤ S (size (serve r s).2))%nat ∧
  (is_mutation r = false → (∀ uuid time body, r ≠ PostBeats uuid time body) →
   (∀ id, r ≠ DeleteBeat id) → (serve r s).2 = s).
Proof.
  split; [|split; [|split]].
  - destruct (serve_writes r s) as [->|[(gone & _ & ->)|(key & new & -> & _)]].
    + by exists JUndefined.
    + exists (JStr gone). intros k' Hk'. by rewrite lookup_delete_ne.
    + exists key. intros k' Hk'. by rewrite lookup_insert_ne.
  - destruct (serve_writes r s) as [->|[(gone & _ & ->)|(key & new & -> & _)]].
    + lia.
    + rewrite map_size_delete. destruct (s !! JStr gone); simpl; lia.
    + rewrite map_size_insert. destruct (s !! key); simpl; lia.
  - destruct (serve_writes r s) as [->|[(gone & _ & ->)|(key & new & -> & _)]].
    + lia.
    + rewrite map_size_delete. destruct (s !! JStr gone) eqn:Hgone; simpl; [|lia].
      assert (size s ≠ 0)%nat; [|lia].
      intros Hzero. apply map_size_empty_inv in Hzero. by rewrite Hzero in Hgone.
    + rewrite map_size_insert. destruct (s !! key); simpl; lia.
  - intros Hmut Hcreate Hdelete.
    destruct r as [uuid time body| |id|time id body|id|time id|lower artist|lower title|time id];
      try done; cbn [serve].
    + by destruct (Hcreate uuid time body).
    + handler. by destruct (s !! JStr id).
    + by destruct (Hdelete id).
    + apply searchBeatsByArtist_store.
    + apply searchBeatsByTitle_store.
Qed.

Lemma request_touches_one_key_witness :
  (serve (GetSearchArtist lower_ascii "wave") shop).2 = shop.
Proof.
  apply (request_touches_one_key (GetSearchArtist lower_ascii "wave") shop);
    [reflexivity | discriminate | discriminate].
Defined.

(** ** Requests in a row *)

Ltac same_object :=
  apply map_eq; intros ?f;
  repeat (rewrite lookup_insert; case_decide; simplify_eq; try done).

(** X7.  On a record stored under its own id, a feature right after a feature
    leaves no trace of the first: reply and store are those of the second
    feature alone. *)
Theorem feature_twice (t1 t2 : Z) (id : string) (beat : Obj) (s : Store) :
  s !! JStr id = Some beat → prop beat "id" = JStr id →
  featureBeat t2 id (featureBeat t1 id s).2 = featureBeat t2 id s.
Proof.
  intros Hid Hown.
  rewrite (featureBeat_present s t1 id beat Hid). cbn [snd].
  rewrite !prop_insert_ne, Hown by done.
  rewrite (featureBeat_present _ t2 id _ (lookup_insert_eq _ _ _)).
  rewrite (featureBeat_present s t2 id beat Hid).
  rewrite !prop_insert_ne, Hown by done. rewrite insert_insert_eq.
  assert (Hsame : <["updatedAt" := getCurrentDate t2]>
                    (<["featured" := JBool true]>
                       (<["updatedAt" := getCurrentDate t1]> (<["featured" := JBool true]> beat)))
                  = <["updatedAt" := getCurrentDate t2]> (<["featured" := JBool true]> beat))
    by same_object.
  by rewrite Hsame.
Qed.

Lemma feature_twice_witness :
  featureBeat 9000000 "a" (featureBeat 8000000 "a" shop).2 = featureBeat 9000000 "a" shop.
Proof. exact (feature_twice 8000000 9000000 "a" _ shop eq_refl eq_refl). Defined.

(** X8.  On a record stored under its own id, an update whose body names no
    [id], followed by a second update, is the one update with the second body
    laid over the first: same reply, same store. *)
Theorem update_twice (t1 t2 : Z) (id : string) (b1 b2 beat : Obj) (s : Store) :
  s !! JStr id = Some beat → prop beat "id" = JStr id → b1 !! "id" = None →
  updateBeat t2 id b2 (updateBeat t1 id b1 s).2 = updateBeat t2 id (spread b1 b2) s.
Proof.
  intros Hid Hown Hb1.
  rewrite (updateBeat_present s t1 id b1 beat Hid). cbn [snd]. rewrite Hown.
  rewrite (updateBeat_present _ t2 id b2 _ (lookup_insert_eq _ _ _)).
  rewrite (updateBeat_present s t2 id (spread b1 b2) beat Hid).
  rewrite prop_insert_ne, prop_spread_absent, Hown by done. rewrite insert_insert_eq.
  assert (Hsame : <["updatedAt" := getCurrentDate t2]>
                    (spread (<["updatedAt" := getCurrentDate t1]> (spread beat b1)) b2)
                  = <["updatedAt" := getCurrentDate t2]> (spread beat (spread b1 b2))).
  { apply map_eq. intros f. destruct (decide (f = "updatedAt")) as [->|Hf].
    - by rewrite !lookup_insert_eq.
    - rewrite !lookup_insert_ne, !lookup_spread by done.
      rewrite lookup_insert_ne, lookup_spread by done.
      by destruct (b2 !! f), (b1 !! f). }
  by rewrite Hsame.
Qed.

Lemma update_twice_witness :
  updateBeat 9000000 "a" {["price" := JNum (Q2Qc 5)]}
    (updateBeat 8000000 "a" {["title" := JStr "Dawn"]} shop).2
  = updateBeat 9000000 "a"
      (spread {["title" := JStr "Dawn"]} {["price" := JNum (Q2Qc 5)]}) shop.
Proof.
  exact (update_twice 8000000 9000000 "a" {["title" := JStr "Dawn"]}
           {["price" := JNum (Q2Qc 5)]} _ shop eq_refl eq_refl eq_refl).
Defined.

(** X9.  On an unsold record stored under its own id, buying and then
    featuring ends as featuring and then buying does, at the same two times:
    the same last reply and the same store. *)
Theorem buy_feature_commute (t1 t2 : Z) (id : string) (beat : Obj) (s : Store) :
  s !! JStr id = Some beat → prop beat "id" = JStr id →
  truthy (prop beat "sold") = false →
  featureBeat t2 id (buyBeat t1 id s).2 = buyBeat t2 id (featureBeat t1 id s).2.
Proof.
  intros Hid Hown Hsold.
  rewrite (buyBeat_unsold s t1 id beat Hid Hsold), (featureBeat_present s t1 id beat Hid).
  cbn [snd]. rewrite !prop_insert_ne, Hown by done.
  rewrite (featureBeat_present _ t2 id _ (lookup_insert_eq _ _ _)).
  rewrite (buyBeat_unsold _ t2 id _ (lookup_insert_eq _ _ _))
    by (by rewrite !prop_insert_ne).
  rewrite !prop_insert_ne, Hown by done. rewrite !insert_insert_eq.
  assert (Hsame : <["updatedAt" := getCurrentDate t2]>
                    (<["featured" := JBool true]>
                       (<["updatedAt" := getCurrentDate t1]> (<["sold" := JBool true]> beat)))
                  = <["updatedAt" := getCurrentDate t2]>
                      (<["sold" := JBool true]>
                         (<["updatedAt" := getCurrentDate t1]>
                            (<["featured" := JBool true]> beat))))
    by same_object.
  by rewrite Hsame.
Qed.

Lemma buy_feature_commute_witness :
  featureBeat 9000000 "a" (buyBeat 8000000 "a" shop).2
  = buyBeat 9000000 "a" (featureBeat 8000000 "a" shop).2.
Proof. exact (buy_feature_commute 8000000 9000000 "a" _ shop eq_refl eq_refl eq_refl). Defined.

(** X10.  A delete right after a create under a key that was not in use
    replies with the created beat and gives the store back as it was before
    the create. *)
Theorem create_then_delete (uuid : string) (time : Z) (body : Obj) (id : string) (s : Store) :
  created_key uuid body = JStr id → s !! JStr id = None →
  ∃ beat,
    (createBeat uuid time body s).1 = Json 201 (One beat) ∧
    deleteBeat id (createBeat uuid time body s).2 = (Json 200 (One beat), s).
Proof.
  intros Hkey Hfree. rewrite createBeat_eq, createBeat_key, Hkey. cbn [fst snd].
  eexists. split; [done|].
  rewrite (deleteBeat_present _ id _ (lookup_insert_eq _ _ _)).
  by rewrite delete_insert_eq, delete_id.
Qed.

Lemma create_then_delete_witness :
  ∃ beat,
    (createBeat "b" 6000000 night shop).1 = Json 201 (One beat) ∧
    deleteBeat "b" (createBeat "b" 6000000 night shop).2 = (Json 200 (One beat), shop).
Proof. exact (create_then_delete "b" 6000000 night "b" shop eq_refl eq_refl). Defined.

(** ** Ids and keys *)

Lemma serve_keeps_own_ids (r : Request) (s : Store) :
  own_ids s → keeps_ids r → own_ids (serve r s).2.
Proof.
  intros Hs Hr.
  destruct r as [uuid time body| |id|time id body|id|time id|lower artist|lower title|time id];
    try (by apply serve_own_ids); cbn [serve].
  - rewrite createBeat_eq. cbn [snd]. by apply own_ids_insert.
  - destruct (s !! JStr id) as [beat|] eqn:Hid; [|by rewrite updateBeat_absent].
    rewrite (updateBeat_present s time id body beat Hid). cbn [snd].
    apply own_ids_insert; [done|]. by rewrite prop_insert_ne, prop_spread_absent.
Qed.

Lemma run_keeps_own_ids (rs : list Request) (s : Store) :
  own_ids s → Forall keeps_ids rs → own_ids (run rs s).
Proof.
  revert s. induction rs as [|r rs IH]; intros s Hs Hrs; [done|].
  apply Forall_cons in Hrs as [Hr Hrs]. cbn [run].
  apply IH; [by apply serve_keeps_own_ids|done].
Qed.

Lemma names_no_id_keeps_ids (r : Request) : names_no_id r → keeps_ids r.
Proof. by destruct r. Qed.

(** A request whose body names no id brings in no key but the uuid it draws. *)
Lemma serve_new_key (r : Request) (s : Store) (k : JsVal) :
  own_ids s → names_no_id r → is_Some ((serve r s).2 !! k) →
  is_Some (s !! k) ∨ ∃ uuid, k = JStr uuid ∧ uuid ∈ drawn_ids [r].
Proof.
  intros Hs Hr.
  assert (Hput : ∀ id old new, s !! JStr id = Some old →
            is_Some (<[JStr id := new]> s !! k) → is_Some (s !! k)).
  { intros id old new Hid. rewrite lookup_insert. case_decide as Hk; [|done].
    intros _. rewrite <- Hk. by eexists. }
  destruct r as [uuid time body| |id|time id body|id|time id|lower artist|lower title|time id];
    cbn [serve].
  - rewrite createBeat_eq, createBeat_id by done. cbn [snd].
    rewrite lookup_insert. case_decide as Hk; [|by left].
    intros _. right. exists uuid. split; [done|]. by left.
  - by left.
  - handler. destruct (s !! JStr id); by left.
  - destruct (s !! JStr id) as [beat|] eqn:Hid; [|rewrite updateBeat_absent by done; by left].
    rewrite (updateBeat_present s time id body beat Hid), (Hs _ _ Hid). cbn [snd].
    intros Hk. left. by eapply Hput.
  - destruct (s !! JStr id) as [beat|] eqn:Hid; [|rewrite deleteBeat_absent by done; by left].
    rewrite (deleteBeat_present s id beat Hid). cbn [snd].
    intros [new [_ Hk]%lookup_delete_Some]. left. by eexists.
  - destruct (s !! JStr id) as [beat|] eqn:Hid; [|rewrite buyBeat_absent by done; by left].
    destruct (truthy (prop beat "sold")) eqn:Hsold;
      [rewrite (buyBeat_sold s time id beat) by done; by left|].
    rewrite (buyBeat_unsold s time id beat Hid Hsold). cbn [snd].
    rewrite !prop_insert_ne, (Hs _ _ Hid) by done. intros Hk. left. by eapply Hput.
  - rewrite searchBeatsByArtist_store. by left.
  - rewrite searchBeatsByTitle_store. by left.
  - destruct (s !! JStr id) as [beat|] eqn:Hid; [|rewrite featureBeat_absent by done; by left].
    rewrite (featureBeat_present s time id beat Hid). cbn [snd].
    rewrite !prop_insert_ne, (Hs _ _ Hid) by done. intros Hk. left. by eapply Hput.
Qed.

Lemma drawn_ids_cons (r : Request) (rs : list Request) :
  drawn_ids (r :: rs) = (drawn_ids [r] ++ drawn_ids rs)%list.
Proof. by destruct r. Qed.

Lemma run_new_keys (rs : list Request) (s : Store) (k : JsVal) :
  own_ids s → Forall names_no_id rs → is_Some (run rs s !! k) →
  is_Some (s !! k) ∨ ∃ uuid, k = JStr uuid ∧ uuid ∈ drawn_ids rs.
Proof.
  revert s. induction rs as [|r rs IH]; intros s Hs Hrs Hk; [by left|].
  apply Forall_cons in Hrs as [Hr Hrs]. cbn [run] in Hk.
  rewrite drawn_ids_cons.
  destruct (IH _ (serve_keeps_own_ids r s Hs (names_no_id_keeps_ids r Hr)) Hrs Hk)
    as [Hserved|(uuid & -> & Hin)].
  - destruct (serve_new_key r s k Hs Hr Hserved) as [Hold|(uuid & -> & Hin)]; [by left|].
    right. exists uuid. split; [done|]. apply elem_of_app. by left.
  - right. exists uuid. split; [done|]. apply elem_of_app. by right.
Qed.

(** X11.  From the empty store, as long as no update hands over an [id],
    every record is stored under the key its own [id] holds, whatever the
    creates are given.  When no create names an [id] either, every key of the
    store is a uuid that a create of the run drew. *)
Theorem run_keys_are_drawn (rs : list Request) :
  Forall keeps_ids rs →
  own_ids (run rs ∅) ∧
  (Forall names_no_id rs →
   ∀ k, is_Some (run rs ∅ !! k) → ∃ uuid, k = JStr uuid ∧ uuid ∈ drawn_ids rs).
Proof.
  assert (Hempty : own_ids ∅) by (intros k beat Hk; by rewrite lookup_empty in Hk).
  intros Hrs. split; [by apply run_keeps_own_ids|].
  intros Hno k Hk. destruct (run_new_keys rs ∅ k Hempty Hno Hk) as [Hold|Hnew]; [|done].
  rewrite lookup_empty in Hold. by destruct Hold.
Qed.

Lemma run_keys_are_drawn_witness :
  own_ids (run [PostBeats "a" 5000000 {["id" := JNum (Q2Qc 5)]}; PostFeature 6000000 "a"] ∅).
Proof.
  apply (run_keys_are_drawn
           [PostBeats "a" 5000000 {["id" := JNum (Q2Qc 5)]}; PostFeature 6000000 "a"]).
  repeat constructor.
Defined.

(** ** Search: errors and queries *)

(** X12.  The artist search throws exactly when some stored record holds no
    string as its artist, whatever the query is and also when the query could
    match nothing; the title search, exactly when some record holds no string
    as its title. *)
Theorem search_throws_iff (toLowerCase : string → string) (query : string) (s : Store) :
  ((searchBeatsByArtist toLowerCase query s).1 = Thrown ↔ field_not_text "artist" s) ∧
  ((searchBeatsByTitle toLowerCase query s).1 = Thrown ↔ field_not_text "title" s).
Proof.
  split.
  - rewrite <- (field_search_throws toLowerCase "artist" (toLowerCase query) s). handler.
    by destruct (filter_callback _ _).
  - rewrite <- (field_search_throws toLowerCase "title" (toLowerCase query) s). handler.
    by destruct (filter_callback _ _).
Qed.

Lemma search_throws_iff_witness :
  (searchBeatsByArtist lower_ascii "wave" (run [PostBeats "a" 5000000 ∅] ∅)).1 = Thrown.
Proof.
  apply (proj1 (search_throws_iff lower_ascii "wave" (run [PostBeats "a" 5000000 ∅] ∅))).
  eexists (JStr "a"), _. split; [reflexivity|]. intros text. discriminate.
Defined.

Lemma append_assoc (a b c : string) : (a +:+ b) +:+ c = a +:+ b +:+ c.
Proof.
  induction a as [|x a IH]; [done|].
  change (String x ((a +:+ b) +:+ c) = String x (a +:+ b +:+ c)). by rewrite IH.
Qed.

Lemma includes_trans (a b c : string) :
  includes a b = true → includes b c = true → includes a c = true.
Proof.
  rewrite !includes_app. intros (p & q & ->) (p' & q' & ->).
  exists (p +:+ p'), (q' +:+ q). by rewrite !append_assoc.
Qed.

Lemma field_includes_narrows (lower : string → string) (field q1 q2 : string) (beat : Obj) :
  occurs (lower q1) (lower q2) →
  field_includes lower field (lower q2) beat = Some true →
  field_includes lower field (lower q1) beat = Some true.
Proof.
  intros Hocc%includes_app. unfold field_includes.
  destruct (toLowerCase_method lower (prop beat field)) as [lowered|]; [|done].
  intros [= Hq2]. f_equal. by apply (includes_trans _ (lower q2)).
Qed.

Lemma filter_callback_sublist {A : Type} (p1 p2 : A → option bool) (xs l1 l2 : list A) :
  (∀ x, p2 x = Some true → p1 x = Some true) →
  filter_callback p1 xs = Some l1 → filter_callback p2 xs = Some l2 → sublist l2 l1.
Proof.
  intros Hp. revert l1 l2. induction xs as [|x xs IH]; cbn; intros l1 l2.
  - intros [= <-] [= <-]. constructor.
  - destruct (p1 x) as [k1|] eqn:H1; [|done]. destruct (p2 x) as [k2|] eqn:H2; [|done].
    destruct (filter_callback p1 xs) as [ys1|]; [|done].
    destruct (filter_callback p2 xs) as [ys2|]; [|done].
    intros [= <-] [= <-]. specialize (IH _ _ eq_refl eq_refl).
    destruct k2.
    + rewrite (Hp x H2) in H1. injection H1 as <-. by constructor.
    + destruct k1; [by constructor|done].
Qed.

(** X14.  A longer query finds less: when the lowered query [q1] is a
    stretch of the lowered query [q2], the beats a search finds for [q2] are
    among those it finds for [q1], in the same order.  The lowering is the
    runtime's, whatever it does. *)
Theorem search_narrows (toLowerCase : string → string) (q1 q2 : string) (s : Store)
    (l1 l2 : list Obj) :
  occurs (toLowerCase q1) (toLowerCase q2) →
  (searchBeatsByArtist toLowerCase q1 s = (Json 200 (Many l1), s) →
   searchBeatsByArtist toLowerCase q2 s = (Json 200 (Many l2), s) → sublist l2 l1) ∧
  (searchBeatsByTitle toLowerCase q1 s = (Json 200 (Many l1), s) →
   searchBeatsByTitle toLowerCase q2 s = (Json 200 (Many l2), s) → sublist l2 l1).
Proof.
  intros Hocc. split; handler.
  - destruct (filter_callback (field_includes toLowerCase "artist" (toLowerCase q1)) _)
      as [f1|] eqn:H1; [|done].
    destruct (filter_callback (field_includes toLowerCase "artist" (toLowerCase q2)) _)
      as [f2|] eqn:H2; [|done].
    intros [= <-] [= <-]. eapply filter_callback_sublist; [|done..].
    intros beat. by apply field_includes_narrows.
  - destruct (filter_callback (field_includes toLowerCase "title" (toLowerCase q1)) _)
      as [f1|] eqn:H1; [|done].
    destruct (filter_callback (field_includes toLowerCase "title" (toLowerCase q2)) _)
      as [f2|] eqn:H2; [|done].
    intros [= <-] [= <-]. eapply filter_callback_sublist; [|done..].
    intros beat. by apply field_includes_narrows.
Qed.

Lemma search_narrows_witness :
  ∃ wave waverly,
    searchBeatsByArtist lower_ascii "WAV" duo = (Json 200 (Many [wave; waverly]), duo) ∧
    searchBeatsByArtist lower_ascii "Waver" duo = (Json 200 (Many [waverly]), duo) ∧
    sublist [waverly] [wave; waverly].
Proof.
  assert (Hocc : occurs (lower_ascii "WAV") (lower_ascii "Waver")).
  { exists "", "er". reflexivity. }
  eexists _, _. split; [reflexivity|]. split; [reflexivity|].
  apply (proj1 (search_narrows lower_ascii "WAV" "Waver" duo _ _ Hocc)); reflexivity.
Defined.

(** ** What stays of a record *)

(** X15.  In a store that keeps records under their own ids, a request that
    leaves the property [f] to the canister changes [f] in no stored record,
    with two exceptions: a buy that succeeds sets [sold] of its record to
    true, and a feature sets [featured] of its record to true.  So [id],
    [createdAt], [title], [artist], [price] and [url] stay as they are, and
    [sold] and [featured] only ever turn true.  ([updatedAt] is the one
    property this does not hold of.) *)
Theorem fields_kept (f : string) (r : Request) (s : Store) (k : JsVal) (old new : Obj) :
  own_ids s → leaves_field f r s → f ≠ "updatedAt" →
  s !! k = Some old → (serve r s).2 !! k = Some new →
  new !! f = old !! f ∨
  (∃ time id, r = PostBuy time id ∧ k = JStr id ∧
              f = "sold" ∧ new !! f = Some (JBool true)) ∨
  (∃ time id, r = PostFeature time id ∧ k = JStr id ∧
              f = "featured" ∧ new !! f = Some (JBool true)).
Proof.
  intros Hs Hr Hf Hold.
  assert (Hsame : ∀ P Q : Prop, s !! k = Some new → new !! f = old !! f ∨ P ∨ Q).
  { intros P Q Hnew. left. by simplify_eq. }
  destruct r as [uuid time body| |id|time id body|id|time id|lower artist|lower title|time id];
    cbn [serve leaves_field] in *.
  - rewrite createBeat_eq, createBeat_key. cbn [snd].
    rewrite lookup_insert_ne by (intros Hk; by rewrite Hk, Hold in Hr). apply Hsame.
  - apply Hsame.
  - handler. destruct (s !! JStr id); apply Hsame.
  - destruct Hr as [Hbid Hbf].
    destruct (s !! JStr id) as [beat|] eqn:Hid; [|rewrite updateBeat_absent by done; apply Hsame].
    rewrite (updateBeat_present s time id body beat Hid), (Hs _ _ Hid). cbn [snd].
    rewrite lookup_insert. case_decide as Hk; [|apply Hsame].
    intros [= <-]. left. rewrite lookup_insert_ne, lookup_spread, Hbf by done.
    by simplify_eq.
  - destruct (s !! JStr id) as [beat|] eqn:Hid; [|rewrite deleteBeat_absent by done; apply Hsame].
    rewrite (deleteBeat_present s id beat Hid). cbn [snd].
    intros [_ Hk]%lookup_delete_Some. by apply Hsame.
  - destruct (s !! JStr id) as [beat|] eqn:Hid; [|rewrite buyBeat_absent by done; apply Hsame].
    destruct (truthy (prop beat "sold")) eqn:Hsold;
      [rewrite (buyBeat_sold s time id beat) by done; apply Hsame|].
    rewrite (buyBeat_unsold s time id beat Hid Hsold). cbn [snd].
    rewrite !prop_insert_ne, (Hs _ _ Hid) by done.
    rewrite lookup_insert. case_decide as Hk; [|apply Hsame].
    intros [= <-]. subst k. rewrite Hid in Hold. injection Hold as ->.
    destruct (decide (f = "sold")) as [->|Hfs].
    + right; left. exists time, id. by rewrite lookup_insert_ne, lookup_insert_eq.
    + left. by rewrite !lookup_insert_ne.
  - rewrite searchBeatsByArtist_store. apply Hsame.
  - rewrite searchBeatsByTitle_store. apply Hsame.
  - destruct (s !! JStr id) as [beat|] eqn:Hid; [|rewrite featureBeat_absent by done; apply Hsame].
    rewrite (featureBeat_present s time id beat Hid). cbn [snd].
    rewrite !prop_insert_ne, (Hs _ _ Hid) by done.
    rewrite lookup_insert. case_decide as Hk; [|apply Hsame].
    intros [= <-]. subst k. rewrite Hid in Hold. injection Hold as ->.
    destruct (decide (f = "featured")) as [->|Hff].
    + right; right. exists time, id. by rewrite lookup_insert_ne, lookup_insert_eq.
    + left. by rewrite !lookup_insert_ne.
Qed.

Lemma fields_kept_witness :
  let old : Obj := default ∅ (shop !! JStr "a") in
  let new : Obj :=
    default ∅ ((updateBeat 8000000 "a" {["price" := JNum (Q2Qc 5)]} shop).2 !! JStr "a") in
  prop old "createdAt" = JDate 5 ∧ new !! "createdAt" = old !! "createdAt".
Proof.
  intros old new. split; [reflexivity|].
  destruct (fields_kept "createdAt" (PutBeat 8000000 "a" {["price" := JNum (Q2Qc 5)]})
              shop (JStr "a") old new own_ids_shop) as [Hkept|[Hbuy|Hfeat]].
  - split; reflexivity.
  - discriminate.
  - reflexivity.
  - reflexivity.
  - exact Hkept.
  - destruct Hbuy as (? & ? & Hr & _). discriminate Hr.
  - destruct Hfeat as (? & ? & Hr & _). discriminate Hr.
Defined.

(** ** Many creates *)

Lemma post_of_stores (c : Creation) (s : Store) :
  ∃ beat,
    (serve (post_of c) s).2 = <[JStr (drawn c) := beat]> s ∧
    prop beat "title" = JStr (title c) ∧
    prop beat "sold" = JBool false.
Proof.
  unfold post_of. cbn [serve]. rewrite createBeat_eq. cbn [snd].
  rewrite createBeat_id by apply beat_fields_no_id. eexists. split; [done|]. split.
  - rewrite !prop_insert_ne by done. unfold prop, beat_fields.
    by rewrite lookup_spread, !lookup_insert_ne, lookup_singleton_eq.
  - by rewrite prop_insert_ne, prop_insert_eq.
Qed.

Lemma run_posts_other (cs : list Creation) (s : Store) (k : JsVal) :
  (∀ c, c ∈ cs → JStr (drawn c) ≠ k) → run (post_of <$> cs) s !! k = s !! k.
Proof.
  revert s. induction cs as [|c cs IH]; intros s Hk; [done|].
  cbn [fmap list_fmap run]. rewrite IH by (intros c' Hc'; apply Hk; by right).
  destruct (post_of_stores c s) as (beat & -> & _).
  apply lookup_insert_ne, Hk. by left.
Qed.

(** X16.  Creates that draw pairwise distinct uuids, none of them in use,
    pile up: after them the store holds one record more for each create,
    every created beat can be read under its uuid, unsold and with the title
    given, and every record that was there before is as it was. *)
Theorem creates_accumulate (cs : list Creation) (s : Store) :
  NoDup (drawn <$> cs) → (∀ c, c ∈ cs → s !! JStr (drawn c) = None) →
  size (run (post_of <$> cs) s) = (length cs + size s)%nat ∧
  (∀ c, c ∈ cs →
     ∃ beat, getBeatById (drawn c) (run (post_of <$> cs) s)
               = (Json 200 (One beat), run (post_of <$> cs) s) ∧
             prop beat "title" = JStr (title c) ∧
             prop beat "sold" = JBool false) ∧
  (∀ k, is_Some (s !! k) → run (post_of <$> cs) s !! k = s !! k).
Proof.
  revert s. induction cs as [|c cs IH]; intros s Hdup Hfree.
  { split; [done|]. split; [|done]. intros c Hc. by apply elem_of_nil in Hc. }
  apply NoDup_cons in Hdup as [Hc Hdup]. cbn [fmap list_fmap run].
  destruct (post_of_stores c s) as (beat & Hserve & Htitle & Hsold). rewrite Hserve.
  assert (Hrest : ∀ c', c' ∈ cs → JStr (drawn c') ≠ JStr (drawn c)).
  { intros c' Hc' [= Heq]. apply Hc. rewrite <- Heq. by apply list_elem_of_fmap_2. }
  destruct (IH (<[JStr (drawn c) := beat]> s) Hdup) as (Hsize & Hread & Hkeep).
  { intros c' Hc'. rewrite lookup_insert_ne by (intros Heq; by apply (Hrest c')).
    apply Hfree. by right. }
  split; [|split].
  - rewrite Hsize, map_size_insert_None by (apply Hfree; by left). cbn. lia.
  - intros c' [->|Hc']%elem_of_cons; [|by apply Hread].
    exists beat. split; [|done]. apply getBeatById_present.
    rewrite run_posts_other by done. apply lookup_insert_eq.
  - intros k Hk. rewrite Hkeep.
    + apply lookup_insert_ne. intros <-. rewrite Hfree in Hk by by left. by destruct Hk.
    + rewrite lookup_insert. by case_decide.
Qed.

Lemma creates_accumulate_witness :
  size (run [PostBeats "b" 6000000 night; PostBeats "c" 7000000 night] shop) = 3%nat.
Proof.
  assert (Hdraws : NoDup ["b"; "c"]).
  { apply NoDup_cons. split.
    - intros Hin. apply list_elem_of_singleton in Hin. discriminate Hin.
    - apply NoDup_singleton. }
  refine (proj1 (creates_accumulate
    [ {| drawn := "b"; clock := 6000000; title := "Night"; artist := "Wave";
         price := Q2Qc (999 # 100); url := "u1" |};
      {| drawn := "c"; clock := 7000000; title := "Night"; artist := "Wave";
         price := Q2Qc (999 # 100); url := "u1" |} ] shop Hdraws _)).
  intros c Hc.
  repeat (apply elem_of_cons in Hc as [->|Hc]; [reflexivity|]).
  by apply elem_of_nil in Hc.
Defined.

(** ** The reply object *)

(** A numeral starts with a digit. *)
Lemma pretty_N_go_head (c : ascii) (t : string) (x : N) (s : string) :
  (∀ d, pretty_N_char d ≠ c) → s ≠ String c t → pretty_N_go x s ≠ String c t.
Proof.
  intros Hc. revert s. induction (N.lt_wf_0 x) as [x _ IH]; intros s Hs.
  assert (x = 0 ∨ 0 < x)%N as [->|Hx] by lia.
  - by rewrite pretty_N_go_0.
  - rewrite pretty_N_go_step by done. apply IH; [by apply N.div_lt|].
    intros [= Hd _]. by apply (Hc (x `mod` 10)%N).
Qed.

Lemma pretty_head (c : ascii) (t : string) (i : nat) :
  (∀ d, pretty_N_char d ≠ c) → pretty i ≠ String c t.
Proof.
  intros Hc. unfold pretty, pretty_nat, pretty, pretty_N. case_decide.
  - intros [= Hd _]. by apply (Hc 0%N).
  - by apply pretty_N_go_head.
Qed.

Lemma pretty_not_status (i : nat) : pretty i ≠ "status".
Proof. apply pretty_head. intros d. unfold pretty_N_char. by repeat case_match. Qed.

Lemma lookup_indexed {A B : Type} (g : nat → string) (h : A → B) (l : list A) :
  Inj (=) (=) g →
  (∀ i, (list_to_map (imap (λ i x, (g i, h x)) l) : gmap string B) !! g i = h <$> l !! i) ∧
  (∀ k, (∀ i, g i ≠ k) →
        (list_to_map (imap (λ i x, (g i, h x)) l) : gmap string B) !! k = None).
Proof.
  revert g. induction l as [|x l IH]; intros g Hg; [done|].
  destruct (IH (g ∘ S)) as [IHi IHk]; [by intros i j [= ->]%Hg|].
  cbn [imap list_to_map foldr]. split.
  - intros [|i].
    + apply lookup_insert_eq.
    + rewrite lookup_insert_ne by (intros Heq%Hg; done). apply (IHi i).
  - intros k Hk. rewrite lookup_insert_ne by apply Hk. apply IHk. intros i. apply Hk.
Qed.

(** X17.  In the reply object of one beat the beat's own properties win over
    the status code: a beat that has a [status] property shows that one and
    hides the code, and a create whose body names [status] replies so.  Every
    other entry is the beat's property of that name. *)
Theorem envelope_of_beat (status : Z) (beat : Obj) :
  (∀ v, beat !! "status" = Some v → envelope status (One beat) !! "status" = Some (Field v)) ∧
  (beat !! "status" = None →
     envelope status (One beat) !! "status"
       = Some (Field (JNum (Q2Qc (inject_Z status))))) ∧
  (∀ f, f ≠ "status" → envelope status (One beat) !! f = Field <$> beat !! f) ∧
  (∀ uuid time body (s : Store) v,
     body !! "status" = Some v →
     ∃ created,
       (createBeat uuid time body s).1 = Json 201 (One created) ∧
       envelope 201 (One created) !! "status" = Some (Field v)).
Proof.
  assert (Hown : ∀ (o : Obj) v, o !! "status" = Some v →
            envelope status (One o) !! "status" = Some (Field v)).
  { intros o v Hv. unfold envelope, own_entries.
    apply lookup_union_Some_l. by rewrite lookup_fmap, Hv. }
  split; [apply Hown|]. split; [|split].
  - intros Hnone. unfold envelope, own_entries.
    rewrite lookup_union_r by (by rewrite lookup_fmap, Hnone). apply lookup_singleton_eq.
  - intros f Hf. unfold envelope, own_entries.
    rewrite lookup_union, lookup_fmap, lookup_singleton_ne by done.
    by destruct (beat !! f).
  - intros uuid time body s v Hv. rewrite createBeat_eq. cbn [fst]. eexists. split; [done|].
    unfold envelope, own_entries. apply lookup_union_Some_l.
    by rewrite lookup_fmap, !lookup_insert_ne, lookup_spread, Hv.
Qed.

Lemma envelope_of_beat_witness :
  ∃ created,
    (createBeat "a" 5000000 {["status" := JStr "ok"]} ∅).1 = Json 201 (One created) ∧
    envelope 201 (One created) !! "status" = Some (Field (JStr "ok")).
Proof.
  assert (Hbody : ({["status" := JStr "ok"]} : Obj) !! "status" = Some (JStr "ok"))
    by reflexivity.
  exact (proj2 (proj2 (proj2 (envelope_of_beat 201 ∅))) "a" 5000000 _ ∅ _ Hbody).
Defined.

(** X18.  The reply object of a list of beats is not an array: it holds the
    status code under [status], the beat at index [i] under the decimal
    numeral of [i], and nothing else. *)
Theorem envelope_of_list (status : Z) (beats : list Obj) :
  envelope status (Many beats) !! "status"
    = Some (Field (JNum (Q2Qc (inject_Z status)))) ∧
  (∀ i : nat, envelope status (Many beats) !! pretty i = Element <$> beats !! i) ∧
  (∀ k, k ≠ "status" → (∀ i : nat, pretty i ≠ k) → envelope status (Many beats) !! k = None).
Proof.
  destruct (lookup_indexed (pretty : nat → string) Element beats _) as [Hi Hk].
  unfold envelope, own_entries. split; [|split].
  - rewrite lookup_union_r by (apply Hk; intros i; apply pretty_not_status).
    apply lookup_singleton_eq.
  - intros i. rewrite lookup_union, Hi, lookup_singleton_ne
      by (intros Heq; by apply (pretty_not_status i)).
    by destruct (beats !! i).
  - intros k Hstatus Hindex. rewrite lookup_union, Hk, lookup_singleton_ne by done. done.
Qed.

Lemma envelope_of_list_witness :
  envelope 200 (Many [night]) !! "x" = None.
Proof.
  apply (envelope_of_list 200 [night]); [discriminate|].
  intros i. apply pretty_head. intros d. unfold pretty_N_char. by repeat case_match.
Defined.

(** ** Sold, by other ways *)

(** X19.  An update decides what a buy will find.  On a record stored under
    its own id, after an update whose body names [sold] (and no [id]), a buy
    is refused as already sold exactly when the value named is truthy, and
    succeeds otherwise: [0], the empty string and [null] put the beat on
    sale, any other number or string takes it off. *)
Theorem update_decides_buy (t1 t2 : Z) (id : string) (body beat : Obj) (v : JsVal) (s : Store) :
  s !! JStr id = Some beat → prop beat "id" = JStr id →
  body !! "id" = None → body !! "sold" = Some v →
  (truthy v = true →
     buyBeat t2 id (updateBeat t1 id body s).2
       = (already_sold id, (updateBeat t1 id body s).2)) ∧
  (truthy v = false →
     is_error (buyBeat t2 id (updateBeat t1 id body s).2).1 = false ∧
     sold_at (buyBeat t2 id (updateBeat t1 id body s).2).2 (JStr id)).
Proof.
  intros Hid Hown Hbid Hsold.
  rewrite (updateBeat_present s t1 id body beat Hid), Hown. cbn [snd].
  assert (Hv : prop (<["updatedAt" := getCurrentDate t1]> (spread beat body)) "sold" = v).
  { rewrite prop_insert_ne by done. unfold prop. by rewrite lookup_spread, Hsold. }
  split; intros Htruthy.
  - apply (buyBeat_sold _ t2 id _ (lookup_insert_eq _ _ _)). by rewrite Hv.
  - rewrite (buyBeat_unsold _ t2 id _ (lookup_insert_eq _ _ _)) by (by rewrite Hv).
    cbn [fst snd]. split; [done|].
    rewrite !prop_insert_ne by done. rewrite prop_spread_absent, Hown by done.
    eexists. split; [apply lookup_insert_eq|]. by rewrite prop_insert_ne, prop_insert_eq.
Qed.

Lemma update_decides_buy_witness :
  buyBeat 9000000 "a" (updateBeat 8000000 "a" {["sold" := JStr "false"]} shop).2
    = (already_sold "a", (updateBeat 8000000 "a" {["sold" := JStr "false"]} shop).2).
Proof.
  assert (Hsold : ({["sold" := JStr "false"]} : Obj) !! "sold" = Some (JStr "false"))
    by reflexivity.
  exact (proj1 (update_decides_buy 8000000 9000000 "a" {["sold" := JStr "false"]} _
                  (JStr "false") shop eq_refl eq_refl eq_refl Hsold) eq_refl).
Defined.

(** X20.  On a record whose [id] is not the id it is stored under, a buy
    succeeds without selling it: the sold copy is written under the record's
    [id], the record itself stays as it was, unsold, and the same buy succeeds
    again. *)
Theorem buy_under_other_id (t1 t2 : Z) (id : string) (beat : Obj) (s : Store) :
  s !! JStr id = Some beat → prop beat "id" ≠ JStr id →
  truthy (prop beat "sold") = false →
  ∃ bought,
    buyBeat t1 id s = (Json 200 (One bought), <[prop beat "id" := bought]> s) ∧
    prop bought "sold" = JBool true ∧
    (buyBeat t1 id s).2 !! JStr id = Some beat ∧
    is_error (buyBeat t2 id (buyBeat t1 id s).2).1 = false.
Proof.
  intros Hid Hother Hsold.
  assert (Hkept : <[prop beat "id" :=
              <["updatedAt" := getCurrentDate t1]> (<["sold" := JBool true]> beat)]> s
            !! JStr id = Some beat) by (by rewrite lookup_insert_ne).
  rewrite (buyBeat_unsold s t1 id beat Hid Hsold). cbn [snd].
  rewrite !prop_insert_ne by done.
  eexists. split; [done|]. split; [by rewrite prop_insert_ne, prop_insert_eq|].
  split; [done|]. by rewrite (buyBeat_unsold _ t2 id beat Hkept Hsold).
Qed.

Lemma buy_under_other_id_witness :
  ∃ bought,
    buyBeat 7000000 "a" forged = (Json 200 (One bought), <[JStr "b" := bought]> forged) ∧
    is_error (buyBeat 8000000 "a" (buyBeat 7000000 "a" forged).2).1 = false.
Proof.
  destruct (buy_under_other_id 7000000 8000000 "a" _ forged eq_refl) as (bought & Hrun & _ & _ & Hagain).
  - discriminate.
  - reflexivity.
  - exists bought. split; [exact Hrun | exact Hagain].
Defined.

(** ** After a delete *)

(** X21.  After a delete of an id, every route by that id replies not-found
    and changes nothing, whether the delete found a record or not. *)
Theorem delete_ends_all_routes (id : string) (s : Store) :
  let s' := (deleteBeat id s).2 in
  getBeatById id s' = (not_found id, s') ∧
  (∀ time body, updateBeat time id body s' = (update_not_found id, s')) ∧
  (∀ time, buyBeat time id s' = (not_found id, s')) ∧
  (∀ time, featureBeat time id s' = (not_found id, s')) ∧
  (∀ other, other ≠ id → (getBeatById other s').1 = (getBeatById other s).1).
Proof.
  intros s'.
  assert (Hs' : s' = delete (JStr id) s).
  { subst s'. destruct (s !! JStr id) as [beat|] eqn:Hid.
    - by rewrite (deleteBeat_present s id beat Hid).
    - by rewrite deleteBeat_absent, delete_id. }
  assert (Hgone : s' !! JStr id = None) by (rewrite Hs'; apply lookup_delete_eq).
  split; [by apply getBeatById_absent|]. split; [intros; by apply updateBeat_absent|].
  split; [intros; by apply buyBeat_absent|]. split; [intros; by apply featureBeat_absent|].
  intros other Hother. handler. rewrite Hs', lookup_delete_ne by congruence.
  by destruct (s !! JStr other).
Qed.

Lemma delete_ends_all_routes_witness :
  (getBeatById "a" (deleteBeat "b" shop).2).1 = (getBeatById "a" shop).1.
Proof.
  apply (delete_ends_all_routes "b" shop). discriminate.
Defined.

(** ** One record for each id *)

(** X22.  In a store that keeps records under their own ids, no two of the
    beats [getBeats] lists have the same [id]. *)
Theorem listed_ids_distinct (s : Store) (beats : list Obj) :
  own_ids s → (getBeats s).1 = Json 200 (Many beats) →
  NoDup ((λ beat, prop beat "id") <$> beats).
Proof.
  intros Hs [= <-].
  assert (Hids : (λ beat, prop beat "id") <$> (map_to_list s).*2 = (map_to_list s).*1).
  { rewrite <- list_fmap_compose. apply list_fmap_ext.
    intros i [k beat] Hin%list_elem_of_lookup_2%elem_of_map_to_list. by apply (Hs k). }
  rewrite Hids. apply NoDup_fst_map_to_list.
Qed.

Lemma listed_ids_distinct_witness :
  NoDup ((λ beat, prop beat "id") <$> (map_to_list shop).*2).
Proof. exact (listed_ids_distinct shop _ own_ids_shop eq_refl). Defined.

(** ** Search on ASCII text *)

Lemma lower_ascii_app (a b : string) :
  lower_ascii (a +:+ b) = lower_ascii a +:+ lower_ascii b.
Proof.
  induction a as [|c a IH]; [done|].
  change (String (lower_char c) (lower_ascii (a +:+ b))
          = String (lower_char c) (lower_ascii a +:+ lower_ascii b)).
  by rewrite IH.
Qed.

Lemma lower_ascii_split (a u v : string) :
  lower_ascii a = u +:+ v →
  ∃ a1 a2, a = a1 +:+ a2 ∧ lower_ascii a1 = u ∧ lower_ascii a2 = v.
Proof.
  revert a. induction u as [|c u IH]; intros a Ha.
  - by exists "", a.
  - destruct a as [|d a]; [done|]. cbn in Ha. injection Ha as Hc Ha.
    destruct (IH a Ha) as (a1 & a2 & -> & <- & <-).
    exists (String d a1), a2. cbn. by rewrite Hc.
Qed.

(** On the ASCII lowering, a stretch of the lowered text is a stretch of the
    text that reads the same when case is ignored. *)
Lemma occurs_lower_ascii (text query : string) :
  occurs (lower_ascii query) (lower_ascii text) ↔ occurs_ignoring_case query text.
Proof.
  split.
  - intros (pre & suf & Htext).
    destruct (lower_ascii_split _ _ _ Htext) as (t1 & t23 & -> & _ & H23).
    destruct (lower_ascii_split _ _ _ H23) as (t2 & t3 & -> & H2 & _).
    by exists t1, t2, t3.
  - intros (pre & mid & suf & -> & Hmid).
    exists (lower_ascii pre), (lower_ascii suf).
    by rewrite !lower_ascii_app, Hmid.
Qed.

Lemma search_field_ascii (lower : string → string) (field query : string) (s : Store) :
  lowers_ascii lower → ascii_text query = true → field_is_ascii field s →
  ∃ found,
    filter_callback (field_includes lower field (lower query)) (map_to_list s).*2
      = Some found ∧
    Selected (field_matches_ignoring_case field query) (map_to_list s).*2 found.
Proof.
  intros Hlower Hquery Hs. apply filter_callback_selected.
  intros beat [k Hk]%elem_of_stored. destruct (Hs k beat Hk) as (text & Hfield & Htext).
  unfold field_includes. rewrite Hfield. cbn. eexists. split; [done|].
  rewrite includes_app, (Hlower _ Hquery), (Hlower _ Htext), occurs_lower_ascii. split.
  - intros Hocc. by exists text.
  - intros (text' & Hfield' & Hocc). congruence.
Qed.

(** X23.  On ASCII text the searches ignore case.  Let the runtime's lowering
    be, on ASCII strings, the lowering of the letters [A]..[Z] (as it is for
    [String.prototype.toLowerCase]), the query be ASCII, and every stored
    artist an ASCII string.  Then [searchBeatsByArtist] replies 200 with
    exactly the records [getBeats] lists in whose artist the query occurs when
    case is ignored, in that order; and so [searchBeatsByTitle] with the
    titles. *)
Theorem search_ignores_ascii_case (toLowerCase : string → string) (query : string)
    (s : Store) (all : list Obj) :
  lowers_ascii toLowerCase → ascii_text query = true →
  (getBeats s).1 = Json 200 (Many all) →
  (field_is_ascii "artist" s →
     ∃ found,
       searchBeatsByArtist toLowerCase query s = (Json 200 (Many found), s) ∧
       Selected (field_matches_ignoring_case "artist" query) all found) ∧
  (field_is_ascii "title" s →
     ∃ found,
       searchBeatsByTitle toLowerCase query s = (Json 200 (Many found), s) ∧
       Selected (field_matches_ignoring_case "title" query) all found).
Proof.
  intros Hlower Hquery. handler. intros [= <-]. split; intros Hs.
  - destruct (search_field_ascii toLowerCase "artist" query s Hlower Hquery Hs)
      as (found & -> & Hsel).
    by exists found.
  - destruct (search_field_ascii toLowerCase "title" query s Hlower Hquery Hs)
      as (found & -> & Hsel).
    by exists found.
Qed.

Lemma duo_artist_is_ascii : field_is_ascii "artist" duo.
Proof.
  intros k beat. unfold duo. cbn [run serve]. rewrite !createBeat_eq. cbn [snd].
  rewrite !createBeat_id by apply beat_fields_no_id.
  rewrite !lookup_insert. repeat case_decide; [..|by rewrite lookup_empty].
  - intros [= <-]. by exists "Waverly".
  - intros [= <-]. by exists "Wave".
Qed.

Lemma search_ignores_ascii_case_witness :
  ∃ found,
    searchBeatsByArtist lower_ascii "waveR" duo = (Json 200 (Many found), duo) ∧
    Selected (field_matches_ignoring_case "artist" "waveR") (map_to_list duo).*2 found.
Proof.
  apply (search_ignores_ascii_case lower_ascii "waveR" duo (map_to_list duo).*2).
  - intros text _. reflexivity.
  - reflexivity.
  - reflexivity.
  - exact duo_artist_is_ascii.
Defined.
